(** * kopf.reactor.activities: the authenticator loop and the batch runner

    A shallow embedding of [src/kopf/reactor/activities.py]
    ([ActivityError], [authenticator], [authenticate], [run_activity]).

    The coroutines are embedded as computations over an explicit machine
    (the state of the outside world and the credentials vault) that also
    yield the sequence of calls they make to their collaborators.  The two
    [while] loops are driven by fuel; a run that exhausts its fuel is
    [Unfinished], which is neither a return nor a raise.

    Python dictionaries keep insertion order and [run_activity] picks
    [exceptions[0]], so dictionaries are association lists with the update
    discipline of [dict]: an existing key keeps its position, a new key is
    appended.

    Delays are seconds ([float] in the source).  Only their order, [min]
    and truth value are used; they are embedded as rationals. *)

From Stdlib Require Import List String ZArith QArith Qminmax Lia.
Import ListNotations.

Set Implicit Arguments.

(* ===================================================================== *)
(** ** Python dictionaries *)
(* ===================================================================== *)

Module Dict.
Section Dict.
Variables K V : Type.
Variable eq_dec : forall a b : K, {a = b} + {a <> b}.

Definition dict := list (K * V).

Definition keys (d : dict) : list K := map fst d.
Definition values (d : dict) : list V := map snd d.

(** [d[k] = v] *)
Fixpoint set (d : dict) (k : K) (v : V) : dict :=
  match d with
  | [] => [(k, v)]
  | (k', v') :: d' =>
      if eq_dec k k' then (k', v) :: d' else (k', v') :: set d' k v
  end.

(** [d.update(new)] *)
Definition update (d new : dict) : dict :=
  fold_left (fun acc kv => set acc (fst kv) (snd kv)) new d.

(** [dict(items)] and [{k: v for ...}]: the items are stored one by one. *)
Definition of_items (items : list (K * V)) : dict := update [] items.

(** [bool(d)] *)
Definition truthy (d : dict) : bool :=
  match d with [] => false | _ :: _ => true end.
End Dict.
End Dict.

(* ===================================================================== *)
(** ** Collaborators outside [activities.py] *)
(* ===================================================================== *)

(** Modelled from the spec: [states.HandlerOutcome] (kopf/reactor/states.py
    is not among the sources).  "One of success with a result value (which
    may be absent), temporary failure with an error and a required delay
    before retry, permanent failure with an error, still-pending.  Never
    holds a result and an exception simultaneously." *)
Inductive HandlerOutcome (Result Exception : Type) : Type :=
| Success (value : option Result)
| TemporaryFailure (error : Exception) (retry_after : Q)
| PermanentFailure (error : Exception)
| Pending.

Arguments Success {Result Exception} value.
Arguments TemporaryFailure {Result Exception} error retry_after.
Arguments PermanentFailure {Result Exception} error.
Arguments Pending {Result Exception}.

(** [outcome.exception] *)
Definition exception {R E : Type} (o : HandlerOutcome R E) : option E :=
  match o with
  | TemporaryFailure e _ => Some e
  | PermanentFailure e => Some e
  | Success _ | Pending => None
  end.

(** [outcome.result] *)
Definition result {R E : Type} (o : HandlerOutcome R E) : option R :=
  match o with
  | Success r => r
  | _ => None
  end.

(** Modelled from the spec: the validity flag of a vault entry
    (kopf/structs/credentials.py is not among the sources). *)
Inductive Validity : Type := valid | invalid | not_yet_populated.

Definition is_valid (f : Validity) : bool :=
  match f with valid => true | _ => false end.

Inductive Level : Type := INFO | WARNING.

(** Modelled from the spec: a vault entry, "(key, CredentialsInfo, validity
    flag)". *)
Record VaultEntry (CredentialsInfo : Type) : Type := {
  key : string;
  info : CredentialsInfo;
  validity : Validity
}.

(** [causation.ActivityCause(logger=..., activity=..., settings=...)]; the
    logger is identified by its name. *)
Record ActivityCause (Activity OperatorSettings : Type) : Type := {
  logger : string;
  activity : Activity;
  settings : OperatorSettings
}.

(** The types and operations [activities.py] imports.  The opaque payloads
    and the behaviour of handlers and of the other tasks are left open: a
    [World] value stands for everything outside the authenticator task, and
    the operations that suspend the task read and advance it. *)
Class Collaborators : Type := {
  (** [handlers_.HandlerId] *)
  HandlerId : Type;
  HandlerId_eq_dec : forall a b : HandlerId, {a = b} + {a <> b};
  (** [str(handler_id)] *)
  str : HandlerId -> string;
  (** a handler descriptor and its [id] *)
  Handler : Type;
  handler_id : Handler -> HandlerId;
  (** [callbacks.Result]; for the authentication activity, the credentials *)
  Result : Type;
  Exception : Type;
  (** [handlers_.Activity] and [activity.value] *)
  Activity : Type;
  AUTHENTICATION : Activity;
  Activity_value : Activity -> string;
  (** [lifecycles.LifeCycleFn] and [lifecycles.all_at_once] *)
  LifeCycleFn : Type;
  all_at_once : LifeCycleFn;
  OperatorRegistry : Type;
  OperatorSettings : Type;
  (** [registry.activity_handlers.get_handlers(activity=...)] *)
  get_handlers : OperatorRegistry -> Activity -> list Handler;
  (** [handling.WAITING_KEEPALIVE_INTERVAL] *)
  WAITING_KEEPALIVE_INTERVAL : Q;
  World : Type;
  (** [handling.execute_handlers_once]: one pass over the handlers the
      lifecycle selects; every exception has become an outcome. *)
  execute_handlers_once :
    LifeCycleFn -> OperatorSettings -> list Handler ->
    ActivityCause Activity OperatorSettings ->
    Dict.dict HandlerId (HandlerOutcome Result Exception) ->
    World -> Dict.dict HandlerId (HandlerOutcome Result Exception) * World;
  (** what the world does while the task is in [sleeping.sleep_or_wait];
      the [asyncio.Event()] passed there is fresh and never set *)
  asleep : Q -> World -> World;
  (** the vault keys the request-issuing tasks invalidate while the task is
      suspended in [vault.wait_for_emptiness] *)
  invalidated : World -> list string * World;
  (** [bool(vault)]: the truth value of the vault object *)
  Vault_bool : list (VaultEntry Result) -> bool
}.

Section Activities.
Context {C : Collaborators}.

Definition Outcome : Type := HandlerOutcome Result Exception.
Definition Outcomes : Type := Dict.dict HandlerId Outcome.
Definition Results : Type := Dict.dict HandlerId Result.
Definition Cause : Type := ActivityCause Activity OperatorSettings.

Definition outcomes_update : Outcomes -> Outcomes -> Outcomes :=
  Dict.update HandlerId_eq_dec.

(* ===================================================================== *)
(** ** [states.State] *)
(* ===================================================================== *)

(** Modelled from the spec: [states.State], a "mapping from HandlerId to
    its latest HandlerOutcome" with the derived properties [done] and
    [delay] (kopf/reactor/states.py is not among the sources). *)
Definition State : Type := Outcomes.

(** Modelled from the spec: "[State.from_scratch(handlers)] initializes
    every handler to pending." *)
Definition from_scratch (handlers : list Handler) : State :=
  Dict.of_items HandlerId_eq_dec
    (map (fun h => (handler_id h, Pending)) handlers).

(** Modelled from the spec: "[State.with_outcomes(newOutcomes)] returns a
    new State where each handler named in [newOutcomes] is overwritten and
    all others retain their prior outcome." *)
Definition with_outcomes (state : State) (new_outcomes : Outcomes) : State :=
  outcomes_update state new_outcomes.

Definition resolved (o : Outcome) : bool :=
  match o with
  | Success _ | PermanentFailure _ => true
  | TemporaryFailure _ _ | Pending => false
  end.

(** Modelled from the spec: "[done] (true iff every handler's latest
    outcome is success or permanent failure)". *)
Definition done (state : State) : bool :=
  forallb resolved (Dict.values state).

Definition positive_delays (state : State) : list Q :=
  flat_map
    (fun o => match o with
              | TemporaryFailure _ d => if Qlt_le_dec 0 d then [d] else []
              | _ => []
              end)
    (Dict.values state).

(** Modelled from the spec: "[delay] (the minimum positive retry delay
    among handlers with temporary failures, or none if no handler is
    pending a delayed retry)". *)
Definition delay (state : State) : option Q :=
  match positive_delays state with
  | [] => None
  | d :: ds => Some (fold_left Qmin ds d)
  end.

(* ===================================================================== *)
(** ** [credentials.Vault] *)
(* ===================================================================== *)

(** Modelled from the spec: the vault's contents, a collection of entries
    (kopf/structs/credentials.py is not among the sources). *)
Definition Vault : Type := list (VaultEntry Result).

(** Modelled from the spec: "The Vault is empty exactly when it holds zero
    entries with validity = valid." *)
Definition is_empty (v : Vault) : bool :=
  forallb (fun e => negb (is_valid (validity e))) v.

(** Modelled from the spec: "Invalidation: marks one or more entries
    invalid". *)
Definition invalidate (ks : list string) (v : Vault) : Vault :=
  map (fun e => if in_dec string_dec (key e) ks
                then {| key := key e; info := info e; validity := invalid |}
                else e) v.

(** Modelled from the spec: "[populate(newEntries)] atomically replaces the
    vault's contents with the given entries, each marked valid". *)
Definition populated (entries : Dict.dict string Result) : Vault :=
  map (fun kv => {| key := fst kv; info := snd kv; validity := valid |})
      entries.

(* ===================================================================== *)
(** ** Runs: machine, calls made, completion *)
(* ===================================================================== *)

(** [class ActivityError(Exception)]: the message, the [outcomes] attribute,
    and the [__cause__] set by [raise ... from ...]. *)
Record ActivityError : Type := {
  msg : string;
  outcomes : Outcomes;
  cause__ : Exception
}.

Record Machine : Type := {
  world : World;
  vault : Vault
}.

(** The calls a run makes, in program order. *)
Inductive Event : Type :=
| Ev_wait_for_emptiness (found : Vault)
    (* [vault.wait_for_emptiness()] has returned, on this vault *)
| Ev_log (level : Level) (message : string)
| Ev_run_activity (lifecycle : LifeCycleFn) (act : Activity)
    (* [run_activity] has been entered with these arguments *)
| Ev_execute_handlers_once (lifecycle : LifeCycleFn) (state : State)
    (current_outcomes : Outcomes)
| Ev_sleep_or_wait (duration : Q)
| Ev_populate (entries : Dict.dict string Result).

Inductive Completion (A : Type) : Type :=
| Returned (a : A)
| Raised (e : ActivityError)
| Suspended   (* parked at an [await] that never resumes *)
| Unfinished. (* still looping when the fuel ran out *)

Arguments Raised {A} e.
Arguments Suspended {A}.
Arguments Unfinished {A}.

Record Run (A : Type) : Type := {
  completion : Completion A;
  machine : Machine;
  events : list Event
}.

Definition M (A : Type) : Type := Machine -> Run A.

Definition ret {A : Type} (a : A) : M A :=
  fun m => {| completion := Returned a; machine := m; events := [] |}.

Definition stop {A B : Type} (r : Run A) (c : Completion B) : Run B :=
  {| completion := c; machine := machine r; events := events r |}.

Definition bind {A B : Type} (c : M A) (k : A -> M B) : M B :=
  fun m =>
    let r := c m in
    match completion r with
    | Returned a =>
        let r' := k a (machine r) in
        {| completion := completion r';
           machine := machine r';
           events := events r ++ events r' |}
    | Raised e => stop r (Raised e)
    | Suspended => stop r Suspended
    | Unfinished => stop r Unfinished
    end.

Definition raise {A : Type} (e : ActivityError) : M A :=
  fun m => {| completion := Raised e; machine := m; events := [] |}.

Definition unfinished {A : Type} : M A :=
  fun m => {| completion := Unfinished; machine := m; events := [] |}.

Definition emit (e : Event) : M unit :=
  fun m => {| completion := Returned tt; machine := m; events := [e] |}.

End Activities.

Arguments Raised {C A} e.
Arguments Suspended {C A}.
Arguments Unfinished {C A}.

Declare Scope run_scope.
Delimit Scope run_scope with run.
Notation "x <- c ;; k" := (bind c (fun x => k))
  (at level 61, c at next level, right associativity) : run_scope.
Notation "c ;; k" := (bind c (fun _ => k))
  (at level 61, right associativity) : run_scope.

Section Coroutines.
Context {C : Collaborators}.
Local Open Scope run_scope.

(* ===================================================================== *)
(** ** The awaited collaborators, as runs *)
(* ===================================================================== *)

(** Modelled from the spec: "[waitForEmptiness()] suspends the calling task
    until the vault holds zero valid entries.  Does not consume or alter
    vault contents."  An empty vault lets the call return at once;
    otherwise the task is parked while the other tasks invalidate entries,
    and it resumes only if that has emptied the vault. *)
Definition wait_for_emptiness : M unit :=
  fun m =>
    if is_empty (vault m) then
      {| completion := Returned tt;
         machine := m;
         events := [Ev_wait_for_emptiness (vault m)] |}
    else
      let (ks, w) := invalidated (world m) in
      let v := invalidate ks (vault m) in
      let m' := {| world := w; vault := v |} in
      if is_empty v then
        {| completion := Returned tt;
           machine := m';
           events := [Ev_wait_for_emptiness v] |}
      else
        {| completion := Suspended; machine := m'; events := [] |}.

(** [await vault.populate(entries)] *)
Definition populate (entries : Dict.dict string Result) : M unit :=
  fun m =>
    {| completion := Returned tt;
       machine := {| world := world m; vault := populated entries |};
       events := [Ev_populate entries] |}.

(** [await handling.execute_handlers_once(lifecycle=..., settings=...,
    handlers=..., cause=..., state=...)] *)
Definition execute_handlers_once_run
    (lifecycle : LifeCycleFn) (settings : OperatorSettings)
    (handlers : list Handler) (cause : Cause) (state : State) : M Outcomes :=
  fun m =>
    let (current_outcomes, w) :=
      execute_handlers_once lifecycle settings handlers cause state (world m)
    in
    {| completion := Returned current_outcomes;
       machine := {| world := w; vault := vault m |};
       events := [Ev_execute_handlers_once lifecycle state current_outcomes] |}.

(** [await sleeping.sleep_or_wait(duration, asyncio.Event())] *)
Definition sleep_or_wait (duration : Q) : M unit :=
  fun m =>
    {| completion := Returned tt;
       machine := {| world := asleep duration (world m); vault := vault m |};
       events := [Ev_sleep_or_wait duration] |}.

(** [logger.info(...)], [logger.warning(...)] *)
Definition log (level : Level) (message : string) : M unit :=
  emit (Ev_log level message).

(* ===================================================================== *)
(** ** [run_activity] *)
(* ===================================================================== *)

(** [if delay:] on an [Optional[float]] *)
Definition delay_truthy (d : option Q) : bool :=
  match d with
  | Some q => negb (Qeq_bool q 0)
  | None => false
  end.

(** The body of [while not state.done:] (lines 115-127), yielding the
    rebound [state] and the updated [outcomes]. *)
Definition run_activity_pass
    (lifecycle : LifeCycleFn) (settings : OperatorSettings)
    (handlers : list Handler) (cause : Cause)
    (state : State) (outcomes : Outcomes) : M (State * Outcomes) :=
  current_outcomes <-
    execute_handlers_once_run lifecycle settings handlers cause state ;;
  let outcomes := outcomes_update outcomes current_outcomes in
  let state := with_outcomes state current_outcomes in
  let delay := delay state in
  (if delay_truthy delay then
     match delay with
     | Some d =>
         let limited_delay := Qmin d WAITING_KEEPALIVE_INTERVAL in
         sleep_or_wait limited_delay
     | None => ret tt
     end
   else ret tt) ;;
  ret (state, outcomes).

(** [while not state.done: ...] (lines 114-127); [fuel] bounds the number
    of passes. *)
Fixpoint run_activity_loop (fuel : nat)
    (lifecycle : LifeCycleFn) (settings : OperatorSettings)
    (handlers : list Handler) (cause : Cause)
    (state : State) (outcomes : Outcomes) : M (State * Outcomes) :=
  if done state then ret (state, outcomes)
  else
    match fuel with
    | O => unfinished
    | S fuel' =>
        so <- run_activity_pass lifecycle settings handlers cause
                                state outcomes ;;
        run_activity_loop fuel' lifecycle settings handlers cause
                          (fst so) (snd so)
    end.

(** [[outcome.exception for outcome in outcomes.values()
      if outcome.exception is not None]] *)
Definition exceptions (outcomes : Outcomes) : list Exception :=
  flat_map
    (fun outcome => match exception outcome with
                    | Some e => [e]
                    | None => []
                    end)
    (Dict.values outcomes).

(** [{handler_id: outcome.result
      for handler_id, outcome in outcomes.items()
      if outcome.result is not None}] *)
Definition results (outcomes : Outcomes) : Results :=
  Dict.of_items HandlerId_eq_dec
    (flat_map
       (fun ho => match result (snd ho) with
                  | Some r => [(fst ho, r)]
                  | None => []
                  end)
       outcomes).

(** Lines 129-143: what follows the loop. *)
Definition run_activity_finish (outcomes : Outcomes) : M Results :=
  match exceptions outcomes with
  | first :: _ =>
      raise {| msg := "One or more handlers failed.";
               outcomes := outcomes;
               cause__ := first |}
  | [] => ret (results outcomes)
  end.

Definition run_activity (fuel : nat)
    (lifecycle : LifeCycleFn) (registry : OperatorRegistry)
    (settings : OperatorSettings) (activity : Activity) : M Results :=
  emit (Ev_run_activity lifecycle activity) ;;
  let logger := ("kopf.activities." ++ Activity_value activity)%string in
  let cause :=
    {| logger := logger; activity := activity; settings := settings |} in
  let handlers := get_handlers registry activity in
  let state := from_scratch handlers in
  let outcomes : Outcomes := [] in
  so <- run_activity_loop fuel lifecycle settings handlers cause
                          state outcomes ;;
  run_activity_finish (snd so).

(* ===================================================================== *)
(** ** [authenticate] and [authenticator] *)
(* ===================================================================== *)

(** [{str(handler_id): info
      for handler_id, info in activity_results.items()}] *)
Definition credentials_of (activity_results : Results)
  : Dict.dict string Result :=
  Dict.of_items string_dec
    (map (fun hi => (str (fst hi), snd hi)) activity_results).

Definition authenticate (fuel : nat)
    (registry : OperatorRegistry) (settings : OperatorSettings)
    (_activity_title : string) : M unit :=
  wait_for_emptiness ;;
  log INFO (_activity_title ++ " has been initiated.")%string ;;
  activity_results <-
    run_activity fuel all_at_once registry settings AUTHENTICATION ;;
  (if Dict.truthy activity_results then
     log INFO (_activity_title ++ " has finished.")%string
   else
     log WARNING
       (_activity_title ++ " has failed: "
          ++ "no credentials were retrieved from the login handlers.")%string) ;;
  populate (credentials_of activity_results).

(** ["Re-authentication" if counter else "Initial authentication"] *)
Definition activity_title (counter : Z) : string :=
  if Z.eqb counter 0 then "Initial authentication"%string
  else "Re-authentication"%string.

(** [while True: await authenticate(...); counter += 1]; [rounds] bounds
    the number of iterations, [fuel] the passes of each batch. *)
Fixpoint authenticator_loop (rounds fuel : nat)
    (registry : OperatorRegistry) (settings : OperatorSettings)
    (counter : Z) : M unit :=
  match rounds with
  | O => unfinished
  | S rounds' =>
      authenticate fuel registry settings (activity_title counter) ;;
      authenticator_loop rounds' fuel registry settings (counter + 1)
  end.

Definition authenticator (rounds fuel : nat)
    (registry : OperatorRegistry) (settings : OperatorSettings) : M unit :=
  fun m =>
    let counter : Z := if Vault_bool (vault m) then 1%Z else 0%Z in
    authenticator_loop rounds fuel registry settings counter m.

End Coroutines.

(* ===================================================================== *)
(** ** A scripted world, to run the coroutines on *)
(* ===================================================================== *)

Module Scenario.
Local Open Scope string_scope.

Inductive activity : Type := startup | cleanup | authentication.

Inductive lifecycle : Type := concurrently | one_by_one.

(** What every pass will answer, and the keys the clients will reject. *)
Record plan : Type := {
  script : list (Dict.dict string (HandlerOutcome string string));
  rejected : list string
}.

Definition activity_value (a : activity) : string :=
  match a with
  | startup => "startup"
  | cleanup => "cleanup"
  | authentication => "authentication"
  end.

(** Handlers are named by strings, results and exceptions are strings, the
    registry is the list of login handlers, a pass answers with the head of
    the script, and the keepalive interval is 10 seconds. *)
Definition scripted : Collaborators := {|
  HandlerId := string;
  HandlerId_eq_dec := string_dec;
  str := fun h => h;
  Handler := string;
  handler_id := fun h => h;
  Result := string;
  Exception := string;
  Activity := activity;
  AUTHENTICATION := authentication;
  Activity_value := activity_value;
  LifeCycleFn := lifecycle;
  all_at_once := concurrently;
  OperatorRegistry := list string;
  OperatorSettings := unit;
  get_handlers := fun registry _ => registry;
  WAITING_KEEPALIVE_INTERVAL := 10%Q;
  World := plan;
  execute_handlers_once := fun _ _ _ _ _ w =>
    match script w with
    | [] => ([], w)
    | answer :: later =>
        (answer, {| script := later; rejected := rejected w |})
    end;
  asleep := fun _ w => w;
  invalidated := fun w => (rejected w, w);
  Vault_bool := fun v => match v with [] => false | _ :: _ => true end
|}.

Definition start (answers : list (Dict.dict string (HandlerOutcome string string)))
  : @Machine scripted :=
  @Build_Machine scripted {| script := answers; rejected := [] |} [].

(** Two login handlers: the first returns credentials, the second fails
    for good. *)
Definition one_fails_answer : @Outcomes scripted :=
  [("login1", Success (Some "X")); ("login2", PermanentFailure "denied")].

Definition one_fails : @Machine scripted := start [one_fails_answer].

Definition both_pending : @State scripted :=
  [("login1", Pending); ("login2", Pending)].

(** The scenario of the spec: the first handler returns X at once, the
    second asks for a retry in 1 second and then returns Y. *)
Definition retry_once : @Machine scripted :=
  start [[("login1", Success (Some "X"));
          ("login2", TemporaryFailure "busy" 1%Q)];
         [("login2", Success (Some "Y"))]].

(** A handler that asks for a retry in an hour, then has no result. *)
Definition long_backoff : @Machine scripted :=
  start [[("login1", TemporaryFailure "busy" 3600%Q)];
         [("login1", Success None)]].

(** Two login handlers that both succeed at once, the second without a
    result. *)
Definition all_succeed : @Machine scripted :=
  start [[("login1", Success (Some "X"));
          ("login2", Success None)]].

Definition logins : @OperatorRegistry scripted := ["login1"; "login2"].

(** The first handler asks for a retry and fails for good on the second
    pass; the second handler fails for good on the first pass. *)
Definition late_failure : @Machine scripted :=
  start [[("login1", TemporaryFailure "busy" 1%Q);
          ("login2", PermanentFailure "denied")];
         [("login1", PermanentFailure "expired")]].

Definition late_failure_outcomes : @Outcomes scripted :=
  [("login1", PermanentFailure "expired");
   ("login2", PermanentFailure "denied")].

Definition all_succeed_answer : @Outcomes scripted :=
  [("login1", Success (Some "X")); ("login2", Success None)].

Definition backoff_answer : @Outcomes scripted :=
  [("login1", TemporaryFailure "busy" 3600%Q)].

Definition login1_pending : @State scripted := [("login1", Pending)].

Definition retry_first_answer : @Outcomes scripted :=
  [("login1", Success (Some "X")); ("login2", TemporaryFailure "busy" 1%Q)].

Definition retry_second_answer : @Outcomes scripted :=
  [("login2", Success (Some "Y"))].

Definition retry_accumulated : @Outcomes scripted :=
  [("login1", Success (Some "X")); ("login2", Success (Some "Y"))].

(** A vault holding one valid credential that the clients will reject. *)
Definition stale : @Machine scripted :=
  @Build_Machine scripted
    {| script := [[("login1", Success (Some "X"))];
                  [("login1", Success (Some "Z"))]];
       rejected := ["login1"] |}
    [{| key := "login1"; info := "W"; validity := valid |}].

End Scenario.

(* ===================================================================== *)
(** ** Reading a run *)
(* ===================================================================== *)

Section Observations.
Context {C : Collaborators}.
Local Open Scope run_scope.

(** The loop of [run_activity] as [run_activity] starts it: on the
    registry's handlers, from the fresh state and no outcomes. *)
Definition batch (fuel : nat)
    (lifecycle : LifeCycleFn) (registry : OperatorRegistry)
    (settings : OperatorSettings) (activity : Activity)
  : M (State * Outcomes) :=
  run_activity_loop fuel lifecycle settings
    (get_handlers registry activity)
    {| logger := ("kopf.activities." ++ Activity_value activity)%string;
       activity := activity;
       settings := settings |}
    (from_scratch (get_handlers registry activity))
    [].

(** What the passes of a run answered, pass by pass. *)
Definition passes (evs : list Event) : list Outcomes :=
  flat_map
    (fun ev => match ev with
               | Ev_execute_handlers_once _ _ current_outcomes =>
                   [current_outcomes]
               | _ => []
               end)
    evs.

(** The handlers for which some pass of a run produced an outcome. *)
Definition invoked (evs : list Event) : list HandlerId :=
  flat_map (@Dict.keys HandlerId Outcome) (passes evs).

(** The sleep a pass ends with, given the state it has merged. *)
Definition limited_delay (state : State) : option Q :=
  match delay state with
  | Some d =>
      if Qeq_bool d 0 then None
      else Some (Qmin d WAITING_KEEPALIVE_INTERVAL)
  | None => None
  end.

Definition is_execute (ev : Event) : bool :=
  match ev with Ev_execute_handlers_once _ _ _ => true | _ => false end.

Definition is_sleep (ev : Event) : bool :=
  match ev with Ev_sleep_or_wait _ => true | _ => false end.

Definition is_populate (ev : Event) : bool :=
  match ev with Ev_populate _ => true | _ => false end.

Definition is_log (ev : Event) : bool :=
  match ev with Ev_log _ _ => true | _ => false end.

Definition is_run_activity (ev : Event) : bool :=
  match ev with Ev_run_activity _ _ => true | _ => false end.




(** What [authenticate] does before it starts the batch. *)
Definition authenticate_opening (_activity_title : string) : M unit :=
  wait_for_emptiness ;;
  log INFO (_activity_title ++ " has been initiated.")%string.

(** [n] iterations of the loop of [authenticator], one after the other. *)
Fixpoint iterations (n fuel : nat)
    (registry : OperatorRegistry) (settings : OperatorSettings)
    (counter : Z) : M unit :=
  match n with
  | O => ret tt
  | S n' =>
      authenticate fuel registry settings (activity_title counter) ;;
      iterations n' fuel registry settings (counter + 1)
  end.

(** [str] tells distinct handler ids apart. *)
Definition str_injective : Prop :=
  forall a b : HandlerId, str a = str b -> a = b.

(** The line [authenticate] logs once the batch has returned. *)
Definition closing_line (_activity_title : string)
    (activity_results : Results) : Event :=
  if Dict.truthy activity_results then
    Ev_log INFO (_activity_title ++ " has finished.")%string
  else
    Ev_log WARNING
      (_activity_title ++ " has failed: "
         ++ "no credentials were retrieved from the login handlers.")%string.

(** Every batch among the events is the authentication batch under the
    all-at-once policy, and comes right after a return of
    [wait_for_emptiness], on an empty vault, and the line that announces
    the attempt. *)
Definition waits_first (evs : list Event) : Prop :=
  forall before l a after,
    evs = before ++ Ev_run_activity l a :: after ->
    l = all_at_once /\ a = AUTHENTICATION /\
    exists before' found title,
      before = before' ++ [Ev_wait_for_emptiness found;
                           Ev_log INFO (title ++ " has been initiated.")%string] /\
      is_empty found = true.

End Observations.

(** The reading of "the vault is populated with whatever results were
    obtained regardless of the batch's outcome": whenever the batch of an
    attempt ends with some handler holding a result and some handler
    holding an exception, the attempt calls [populate]. *)
Definition populates_despite_failure : Prop :=
  forall (C : Collaborators) (fuel : nat)
         (registry : OperatorRegistry) (settings : OperatorSettings)
         (title : string) (m : Machine) (so : State * Outcomes),
    completion (authenticate_opening title m) = Returned tt ->
    completion (batch fuel all_at_once registry settings AUTHENTICATION
                      (machine (authenticate_opening title m)))
      = Returned so ->
    (exists h r, In (h, Success (Some r)) (snd so)) ->
    (exists h o x, In (h, o) (snd so) /\ exception o = Some x) ->
    exists entries,
      In (Ev_populate entries)
         (events (authenticate fuel registry settings title m)).

Section PassOrder.
Context {C : Collaborators}.

(** The events are passes of one loop that starts on [state]: every
    execute call is made under [lifecycle] on the state the loop holds,
    which is not done, and hands the next call that state merged with its
    answer; sleeps may come in between, and nothing else. *)
Fixpoint threads (lifecycle : LifeCycleFn) (state : State)
    (evs : list Event) : Prop :=
  match evs with
  | [] => True
  | Ev_execute_handlers_once l st current_outcomes :: rest =>
      l = lifecycle /\ st = state /\ done state = false /\
      threads lifecycle (with_outcomes state current_outcomes) rest
  | Ev_sleep_or_wait _ :: rest => threads lifecycle state rest
  | _ :: _ => False
  end.

End PassOrder.

(* ===================================================================== *)
(** ** Facts about dictionaries *)
(* ===================================================================== *)

Module DictFacts.
Section DictFacts.
Variables K V : Type.
Variable eq_dec : forall a b : K, {a = b} + {a <> b}.
Implicit Types (d new : Dict.dict K V) (k : K) (v : V).

Lemma in_keys_set d k v k' :
  In k' (Dict.keys (Dict.set eq_dec d k v)) <-> k' = k \/ In k' (Dict.keys d).
Proof.
  induction d as [|[k0 v0] d IH]; simpl.
  - intuition.
  - destruct (eq_dec k k0) as [Heq|Hne]; [subst k0|]; simpl.
    + intuition.
    + rewrite IH. intuition.
Qed.

(** Storing under a key keeps the position of a key already there and
    appends a new one. *)
Lemma keys_set d k v :
  Dict.keys (Dict.set eq_dec d k v) =
  if in_dec eq_dec k (Dict.keys d) then Dict.keys d else Dict.keys d ++ [k].
Proof.
  induction d as [|[k0 v0] d IH]; simpl.
  - reflexivity.
  - destruct (eq_dec k k0) as [Heq|Hne]; [subst k0|]; simpl.
    + destruct (eq_dec k k); [reflexivity | contradiction].
    + rewrite IH. destruct (eq_dec k0 k) as [Heq|Hne']; [subst; contradiction|].
      destruct (in_dec eq_dec k (Dict.keys d)); reflexivity.
Qed.

Lemma NoDup_set d k v :
  NoDup (Dict.keys d) -> NoDup (Dict.keys (Dict.set eq_dec d k v)).
Proof.
  intros Hd. rewrite keys_set.
  destruct (in_dec eq_dec k (Dict.keys d)) as [|Hn]; [assumption|].
  apply NoDup_app; [assumption | repeat constructor; intros [] | ].
  intros x Hx [<-|[]]. contradiction.
Qed.

Lemma in_set d k v k' v' :
  NoDup (Dict.keys d) ->
  In (k', v') (Dict.set eq_dec d k v) ->
  (k' = k /\ v' = v) \/ (k' <> k /\ In (k', v') d).
Proof.
  induction d as [|[k0 v0] d IH]; simpl; intros Hd Hin.
  - destruct Hin as [[= <- <-]|[]]. now left.
  - inversion Hd as [|? ? Hk0 Hd']; subst.
    destruct (eq_dec k k0) as [Heq|Hne]; [subst k0|]; simpl in Hin.
    + destruct Hin as [[= <- <-]|Hin]; [now left|].
      right. split; [|now right].
      intros ->. apply Hk0. now apply (in_map fst) in Hin.
    + destruct Hin as [[= <- <-]|Hin].
      * right. split; [congruence | now left].
      * destruct (IH Hd' Hin) as [?|[? ?]]; [now left | right; auto].
Qed.

Lemma in_set_new d k v : In (k, v) (Dict.set eq_dec d k v).
Proof.
  induction d as [|[k0 v0] d IH]; simpl.
  - now left.
  - destruct (eq_dec k k0) as [Heq|Hne]; [subst k0|]; [now left | now right].
Qed.

Lemma update_cons d k v new :
  Dict.update eq_dec d ((k, v) :: new) =
  Dict.update eq_dec (Dict.set eq_dec d k v) new.
Proof. reflexivity. Qed.

Lemma update_app d new1 new2 :
  Dict.update eq_dec d (new1 ++ new2) =
  Dict.update eq_dec (Dict.update eq_dec d new1) new2.
Proof. unfold Dict.update. apply fold_left_app. Qed.

Lemma in_keys_update d new k :
  In k (Dict.keys (Dict.update eq_dec d new)) <->
  In k (Dict.keys d) \/ In k (Dict.keys new).
Proof.
  revert d. induction new as [|[k0 v0] new IH]; intros d.
  - simpl. intuition.
  - rewrite update_cons, IH, in_keys_set. simpl. intuition.
Qed.

Lemma NoDup_update d new :
  NoDup (Dict.keys d) -> NoDup (Dict.keys (Dict.update eq_dec d new)).
Proof.
  revert d. induction new as [|[k0 v0] new IH]; intros d Hd.
  - assumption.
  - rewrite update_cons. apply IH. now apply NoDup_set.
Qed.

Lemma NoDup_of_items (items : list (K * V)) :
  NoDup (Dict.keys (Dict.of_items eq_dec items)).
Proof. apply NoDup_update. constructor. Qed.

(** After an update, an entry is one of the new ones, or an old one whose
    key the update did not name. *)
Lemma in_update d new k v :
  NoDup (Dict.keys d) ->
  In (k, v) (Dict.update eq_dec d new) ->
  In (k, v) new \/ (In (k, v) d /\ ~ In k (Dict.keys new)).
Proof.
  revert d. induction new as [|[k0 v0] new IH]; intros d Hd Hin.
  - right. split; [assumption | intros []].
  - rewrite update_cons in Hin.
    destruct (IH _ (@NoDup_set d k0 v0 Hd) Hin) as [Hnew|[Hset Hk]].
    + left. now right.
    + destruct (@in_set d k0 v0 k v Hd Hset) as [[-> ->]|[Hne Hold]].
      * left. now left.
      * right. split; [assumption|]. simpl. intros [->|?]; auto.
Qed.

Lemma update_fresh d new :
  NoDup (Dict.keys (d ++ new)) -> Dict.update eq_dec d new = d ++ new.
Proof.
  revert d. induction new as [|[k0 v0] new IH]; intros d Hd.
  - simpl. now rewrite app_nil_r.
  - rewrite update_cons.
    assert (Hset : Dict.set eq_dec d k0 v0 = d ++ [(k0, v0)]).
    { unfold Dict.keys in Hd. rewrite map_app in Hd. simpl in Hd.
      apply NoDup_remove_2 in Hd.
      assert (Hk : ~ In k0 (Dict.keys d)).
      { intros H. apply Hd. apply in_or_app. now left. }
      clear -Hk. induction d as [|[k1 v1] d IHd]; simpl; [reflexivity|].
      destruct (eq_dec k0 k1) as [->|Hne].
      - exfalso. apply Hk. now left.
      - f_equal. apply IHd. intros H. apply Hk. now right. }
    rewrite Hset, IH; rewrite <- app_assoc; [reflexivity | exact Hd].
Qed.

(** A duplicate-free list of items is its own dictionary. *)
Lemma of_items_NoDup (items : list (K * V)) :
  NoDup (Dict.keys items) -> Dict.of_items eq_dec items = items.
Proof. intros H. unfold Dict.of_items. now rewrite update_fresh. Qed.

Lemma update_nonempty d new :
  new <> [] -> Dict.update eq_dec d new <> [].
Proof.
  destruct new as [|[k0 v0] new]; [congruence|]. intros _ H.
  assert (Hin : In k0 (Dict.keys (Dict.update eq_dec d ((k0, v0) :: new)))).
  { apply in_keys_update. right. now left. }
  rewrite H in Hin. exact Hin.
Qed.

End DictFacts.
End DictFacts.

(* ===================================================================== *)
(** ** Facts about states *)
(* ===================================================================== *)

Section StateFacts.
Context {C : Collaborators}.

Lemma from_scratch_nil : from_scratch [] = [].
Proof. reflexivity. Qed.

Lemma from_scratch_NoDup handlers :
  NoDup (Dict.keys (from_scratch handlers)).
Proof. apply DictFacts.NoDup_of_items. Qed.

Lemma from_scratch_keys handlers h :
  In h (Dict.keys (from_scratch handlers)) <-> In h (map handler_id handlers).
Proof.
  unfold from_scratch, Dict.of_items.
  rewrite DictFacts.in_keys_update. simpl.
  unfold Dict.keys. rewrite map_map. simpl. intuition.
Qed.

Lemma from_scratch_pending handlers h o :
  In (h, o) (from_scratch handlers) -> o = Pending.
Proof.
  unfold from_scratch, Dict.of_items. intros Hin.
  apply DictFacts.in_update in Hin; [|constructor].
  destruct Hin as [Hin|[[] _]].
  apply in_map_iff in Hin. destruct Hin as [x [[= _ <-] _]]. reflexivity.
Qed.

(** "For all handler sets H, [State.from_scratch(H).done] is false iff H
    is non-empty." *)
Lemma from_scratch_done handlers :
  done (from_scratch handlers) = false <-> handlers <> [].
Proof.
  split.
  - intros Hd ->. discriminate Hd.
  - intros Hne. destruct (from_scratch handlers) as [|[h o] rest] eqn:E.
    + exfalso. revert E. unfold from_scratch, Dict.of_items.
      apply DictFacts.update_nonempty.
      destruct handlers; [congruence | discriminate].
    + assert (o = Pending) as ->.
      { apply (from_scratch_pending handlers h). rewrite E. now left. }
      reflexivity.
Qed.

Lemma done_forall (state : State) :
  done state = true <->
  forall h o, In (h, o) state -> resolved o = true.
Proof.
  unfold done. rewrite forallb_forall. split.
  - intros H h o Hin. apply H. unfold Dict.values.
    now apply (in_map snd) in Hin.
  - intros H o Hin. unfold Dict.values in Hin.
    apply in_map_iff in Hin. destruct Hin as [[h o'] [<- Hin]].
    now apply (H h).
Qed.

Lemma delay_none (state : State) :
  (forall h o, In (h, o) state -> resolved o = true) ->
  delay state = None.
Proof.
  intros H. unfold delay.
  assert (E : positive_delays state = []).
  { unfold positive_delays, Dict.values.
    induction state as [|[h o] state IH]; [reflexivity|]. simpl.
    rewrite IH by (intros h' o' Hin; apply (H h'); now right).
    specialize (H h o (or_introl eq_refl)).
    destruct o; simpl in *; try reflexivity; discriminate. }
  now rewrite E.
Qed.

(** A state that is done asks for no delay. *)
Lemma done_delay (state : State) : done state = true -> delay state = None.
Proof. intros H. apply delay_none. now apply done_forall. Qed.

Lemma fold_Qmin_le (ds : list Q) (d : Q) :
  (fold_left Qmin ds d <= d)%Q /\
  Forall (fun x => (fold_left Qmin ds d <= x)%Q) ds.
Proof.
  revert d. induction ds as [|x ds IH]; intros d; simpl.
  - split; [apply Qle_refl | constructor].
  - destruct (IH (Qmin d x)) as [H1 H2]. split.
    + eapply Qle_trans; [exact H1 | apply Q.le_min_l].
    + constructor; [|exact H2].
      eapply Qle_trans; [exact H1 | apply Q.le_min_r].
Qed.

Lemma fold_Qmin_in (ds : list Q) (d : Q) :
  In (fold_left Qmin ds d) (d :: ds).
Proof.
  revert d. induction ds as [|x ds IH]; intros d; simpl.
  - now left.
  - assert (Hm : Qmin d x = d \/ Qmin d x = x).
    { unfold Qmin, GenericMinMax.gmin. destruct (d ?= x)%Q; auto. }
    destruct (IH (Qmin d x)) as [H|H]; [|auto].
    rewrite <- H. destruct Hm as [->| ->]; auto.
Qed.

(** The delay a state reports is positive. *)
Lemma delay_positive (state : State) (d : Q) :
  delay state = Some d -> (0 < d)%Q.
Proof.
  unfold delay. destruct (positive_delays state) as [|x xs] eqn:E; [discriminate|].
  intros [= <-].
  assert (H : Forall (fun q => (0 < q)%Q) (positive_delays state)).
  { unfold positive_delays. apply Forall_forall. intros q Hq.
    apply in_flat_map in Hq. destruct Hq as [o [_ Hq]].
    destruct o; try contradiction.
    destruct (Qlt_le_dec 0 retry_after); [|contradiction].
    destruct Hq as [<-|[]]. assumption. }
  rewrite E in H. rewrite Forall_forall in H. apply H. apply fold_Qmin_in.
Qed.

End StateFacts.

(* ===================================================================== *)
(** ** Facts about the batch runner *)
(* ===================================================================== *)

Section BatchFacts.
Context {C : Collaborators}.
Local Open Scope run_scope.

Lemma bind_run {A B : Type} (c : M A) (k : A -> M B) (m : Machine) :
  bind c k m =
  match completion (c m) with
  | Returned a =>
      {| completion := completion (k a (machine (c m)));
         machine := machine (k a (machine (c m)));
         events := events (c m) ++ events (k a (machine (c m))) |}
  | Raised e => stop (c m) (Raised e)
  | Suspended => stop (c m) Suspended
  | Unfinished => stop (c m) Unfinished
  end.
Proof. reflexivity. Qed.

(** One pass: the handlers are executed, the answer is merged into both
    mappings, and the pass sleeps when the merged state asks for it. *)
Lemma run_activity_pass_run lifecycle settings handlers cause state outcomes m :
  let answer :=
    execute_handlers_once lifecycle settings handlers cause state (world m) in
  let state' := with_outcomes state (fst answer) in
  run_activity_pass lifecycle settings handlers cause state outcomes m =
  {| completion := Returned (state', outcomes_update outcomes (fst answer));
     machine :=
       {| world := match limited_delay state' with
                   | Some q => asleep q (snd answer)
                   | None => snd answer
                   end;
          vault := vault m |};
     events :=
       Ev_execute_handlers_once lifecycle state (fst answer)
       :: match limited_delay state' with
          | Some q => [Ev_sleep_or_wait q]
          | None => []
          end |}.
Proof.
  unfold run_activity_pass, execute_handlers_once_run, limited_delay,
    delay_truthy, bind, sleep_or_wait, ret.
  simpl.
  destruct (execute_handlers_once lifecycle settings handlers cause state
              (world m)) as [co w].
  simpl.
  destruct (delay (with_outcomes state co)) as [d|]; simpl; [|reflexivity].
  destruct (Qeq_bool d 0); reflexivity.
Qed.

Lemma run_activity_loop_done fuel lifecycle settings handlers cause
    state outcomes m :
  done state = true ->
  run_activity_loop fuel lifecycle settings handlers cause state outcomes m =
  ret (state, outcomes) m.
Proof. intros H. destruct fuel; simpl; now rewrite H. Qed.

Lemma run_activity_loop_step fuel lifecycle settings handlers cause
    state outcomes m :
  done state = false ->
  run_activity_loop (S fuel) lifecycle settings handlers cause
                    state outcomes m =
  bind (run_activity_pass lifecycle settings handlers cause state outcomes)
       (fun so => run_activity_loop fuel lifecycle settings handlers cause
                                    (fst so) (snd so)) m.
Proof. intros H. simpl. now rewrite H. Qed.

(** The loop neither raises nor parks: it returns or is still looping. *)
Lemma run_activity_loop_completion fuel lifecycle settings handlers cause
    state outcomes m :
  (exists so,
     completion (run_activity_loop fuel lifecycle settings handlers cause
                                   state outcomes m) = Returned so) \/
  completion (run_activity_loop fuel lifecycle settings handlers cause
                                state outcomes m) = Unfinished.
Proof.
  revert state outcomes m.
  induction fuel as [|fuel IH]; intros state outcomes m;
    destruct (done state) eqn:Hd.
  - rewrite run_activity_loop_done by assumption. left. eexists. reflexivity.
  - simpl. rewrite Hd. now right.
  - rewrite run_activity_loop_done by assumption. left. eexists. reflexivity.
  - rewrite run_activity_loop_step, bind_run, run_activity_pass_run
      by assumption.
    simpl. apply IH.
Qed.

(** At loop exit the state is done. *)
Lemma run_activity_loop_exit fuel lifecycle settings handlers cause
    state outcomes m so :
  completion (run_activity_loop fuel lifecycle settings handlers cause
                                state outcomes m) = Returned so ->
  done (fst so) = true.
Proof.
  revert state outcomes m.
  induction fuel as [|fuel IH]; intros state outcomes m;
    destruct (done state) eqn:Hd.
  - rewrite run_activity_loop_done by assumption. now intros [= <-].
  - simpl. rewrite Hd. discriminate.
  - rewrite run_activity_loop_done by assumption. now intros [= <-].
  - rewrite run_activity_loop_step, bind_run, run_activity_pass_run
      by assumption.
    simpl. apply IH.
Qed.

(** The accumulated mapping is the passes' answers, merged in order. *)
Lemma run_activity_loop_outcomes fuel lifecycle settings handlers cause
    state outcomes m so :
  let r := run_activity_loop fuel lifecycle settings handlers cause
                             state outcomes m in
  completion r = Returned so ->
  snd so = fold_left outcomes_update (passes (events r)) outcomes.
Proof.
  revert state outcomes m.
  induction fuel as [|fuel IH]; intros state outcomes m;
    destruct (done state) eqn:Hd; cbv zeta.
  - rewrite run_activity_loop_done by assumption. now intros [= <-].
  - simpl. rewrite Hd. discriminate.
  - rewrite run_activity_loop_done by assumption. now intros [= <-].
  - rewrite run_activity_loop_step, bind_run, run_activity_pass_run
      by assumption.
    simpl. intros H. apply IH in H. rewrite H. f_equal.
    unfold passes. rewrite flat_map_app.
    destruct (limited_delay _); reflexivity.
Qed.

(** The loop only executes handlers and sleeps. *)
Lemma run_activity_loop_events fuel lifecycle settings handlers cause
    state outcomes m :
  Forall (fun ev => is_execute ev = true \/ is_sleep ev = true)
    (events (run_activity_loop fuel lifecycle settings handlers cause
                               state outcomes m)).
Proof.
  revert state outcomes m.
  induction fuel as [|fuel IH]; intros state outcomes m;
    destruct (done state) eqn:Hd.
  - rewrite run_activity_loop_done by assumption. constructor.
  - simpl. rewrite Hd. constructor.
  - rewrite run_activity_loop_done by assumption. constructor.
  - rewrite run_activity_loop_step, bind_run, run_activity_pass_run
      by assumption.
    simpl. constructor; [now left|].
    apply Forall_app. split; [|apply IH].
    destruct (limited_delay _);
      [constructor; [now right | constructor] | constructor].
Qed.

(** The loop leaves the vault alone. *)
Lemma run_activity_loop_vault fuel lifecycle settings handlers cause
    state outcomes m :
  vault (machine (run_activity_loop fuel lifecycle settings handlers cause
                                    state outcomes m)) = vault m.
Proof.
  revert state outcomes m.
  induction fuel as [|fuel IH]; intros state outcomes m;
    destruct (done state) eqn:Hd.
  - now rewrite run_activity_loop_done by assumption.
  - simpl. now rewrite Hd.
  - now rewrite run_activity_loop_done by assumption.
  - rewrite run_activity_loop_step, bind_run, run_activity_pass_run
      by assumption.
    simpl. now rewrite IH.
Qed.

(** [run_activity], read off the run of its loop. *)
Lemma run_activity_run fuel lifecycle registry settings activity m :
  let r := batch fuel lifecycle registry settings activity m in
  run_activity fuel lifecycle registry settings activity m =
  {| completion :=
       match completion r with
       | Returned so =>
           match exceptions (snd so) with
           | first :: _ =>
               Raised {| msg := "One or more handlers failed.";
                         outcomes := snd so;
                         cause__ := first |}
           | [] => Returned (results (snd so))
           end
       | Raised e => Raised e
       | Suspended => Suspended
       | Unfinished => Unfinished
       end;
     machine := machine r;
     events := Ev_run_activity lifecycle activity :: events r |}.
Proof.
  unfold run_activity, batch. rewrite bind_run. simpl.
  rewrite bind_run.
  destruct (completion (run_activity_loop _ _ _ _ _ _ _ _)) as [so|e| |];
    try reflexivity.
  unfold run_activity_finish.
  destruct (exceptions (snd so)); simpl; now rewrite app_nil_r.
Qed.

End BatchFacts.

(* ===================================================================== *)
(** ** The batch runner: what [run_activity] raises and returns *)
(* ===================================================================== *)

Section BatchClaims.
Context {C : Collaborators}.
Local Open Scope run_scope.

Lemma exceptions_nonempty (o : Outcomes) :
  exceptions o <> [] <->
  exists h oc x, In (h, oc) o /\ exception oc = Some x.
Proof.
  unfold exceptions, Dict.values. split.
  - intros H. destruct (flat_map _ _) as [|x xs] eqn:E; [congruence|].
    assert (Hx : In x (x :: xs)) by now left.
    rewrite <- E in Hx. apply in_flat_map in Hx.
    destruct Hx as [oc [Hoc Hx]].
    apply in_map_iff in Hoc. destruct Hoc as [[h oc'] [<- Hin]].
    exists h, oc', x. split; [assumption|]. simpl in *.
    destruct (exception oc'); [|contradiction].
    destruct Hx as [->|[]]. reflexivity.
  - intros [h [oc [x [Hin Hx]]]] E.
    assert (Hi : In x (flat_map
                         (fun outcome => match exception outcome with
                                         | Some e => [e]
                                         | None => []
                                         end) (map snd o))).
    { apply in_flat_map. exists oc. split.
      - now apply (in_map snd) in Hin.
      - rewrite Hx. now left. }
    rewrite E in Hi. exact Hi.
Qed.

(** The head of [exceptions] belongs to the first entry of the mapping
    that carries an exception. *)
Lemma exceptions_first (o : Outcomes) x xs :
  exceptions o = x :: xs ->
  exists before h oc after,
    o = before ++ (h, oc) :: after /\
    Forall (fun ho => exception (snd ho) = None) before /\
    exception oc = Some x.
Proof.
  unfold exceptions, Dict.values.
  induction o as [|[h oc] o IH]; simpl; [discriminate|].
  destruct (exception oc) as [e|] eqn:E; simpl.
  - intros [= -> _]. exists [], h, oc, o. repeat split; [constructor | assumption].
  - intros H. destruct (IH H) as [before [h' [oc' [after [-> [Hb Hx]]]]]].
    exists ((h, oc) :: before), h', oc', after.
    repeat split; [constructor; assumption | assumption].
Qed.

Lemma fold_update_keys (ps : list Outcomes) (o : Outcomes) h :
  In h (Dict.keys (fold_left outcomes_update ps o)) <->
  In h (Dict.keys o) \/ In h (flat_map (@Dict.keys HandlerId Outcome) ps).
Proof.
  revert o. induction ps as [|p ps IH]; intros o; simpl.
  - intuition.
  - rewrite IH. unfold outcomes_update. rewrite DictFacts.in_keys_update.
    rewrite in_app_iff. intuition.
Qed.

Lemma fold_update_NoDup (ps : list Outcomes) (o : Outcomes) :
  NoDup (Dict.keys o) -> NoDup (Dict.keys (fold_left outcomes_update ps o)).
Proof.
  revert o. induction ps as [|p ps IH]; intros o Ho; simpl; [assumption|].
  apply IH. now apply DictFacts.NoDup_update.
Qed.

(** C1: for every batch, [run_activity] raises [ActivityError] if and only
    if its loop exits (with [state.done]) while at least one accumulated
    outcome carries an exception; the error then carries the whole
    accumulated mapping: the answers of all passes merged in order, with a
    key for every handler that got an outcome in some pass, whether it
    failed or not. *)
Theorem run_activity_raises_iff fuel lifecycle registry settings activity m :
  let loop := batch fuel lifecycle registry settings activity m in
  let run := run_activity fuel lifecycle registry settings activity m in
  ((exists e, completion run = Raised e) <->
   (exists so,
      completion loop = Returned so /\ done (fst so) = true /\
      exists h o x, In (h, o) (snd so) /\ exception o = Some x))
  /\
  (forall e, completion run = Raised e ->
     exists so,
       completion loop = Returned so /\
       outcomes e = snd so /\
       outcomes e = fold_left outcomes_update (passes (events run)) [] /\
       forall h, In h (Dict.keys (outcomes e)) <-> In h (invoked (events run))).
Proof.
  cbv zeta. rewrite run_activity_run. simpl.
  pose proof (@run_activity_loop_exit C fuel lifecycle settings
                (get_handlers registry activity)
                {| logger := ("kopf.activities." ++ Activity_value activity)%string;
                   activity := activity; settings := settings |}
                (from_scratch (get_handlers registry activity)) [] m) as Hexit.
  pose proof (@run_activity_loop_outcomes C fuel lifecycle settings
                (get_handlers registry activity)
                {| logger := ("kopf.activities." ++ Activity_value activity)%string;
                   activity := activity; settings := settings |}
                (from_scratch (get_handlers registry activity)) [] m) as Hout.
  pose proof (@run_activity_loop_completion C fuel lifecycle settings
                (get_handlers registry activity)
                {| logger := ("kopf.activities." ++ Activity_value activity)%string;
                   activity := activity; settings := settings |}
                (from_scratch (get_handlers registry activity)) [] m) as Hcompl.
  cbv zeta in Hout. fold (batch fuel lifecycle registry settings activity) in *.
  destruct (completion (batch fuel lifecycle registry settings activity m))
    as [so|e0| |] eqn:Eloop.
  - specialize (Hexit so eq_refl). specialize (Hout so eq_refl).
    destruct (exceptions (snd so)) as [|x xs] eqn:Ex.
    + split.
      * split; [intros [e He]; discriminate|].
        intros [so' [[= <-] [_ Hsome]]]. exfalso.
        apply exceptions_nonempty in Hsome. now apply Hsome.
      * intros e He. discriminate.
    + split.
      * split.
        -- intros _. exists so. repeat split; try assumption.
           apply exceptions_nonempty. rewrite Ex. discriminate.
        -- intros _. eexists. reflexivity.
      * intros e [= <-]. exists so. simpl. repeat split; try assumption.
        -- rewrite Hout. unfold invoked. intros Hin.
           apply fold_update_keys in Hin. destruct Hin as [[]|Hin]. exact Hin.
        -- rewrite Hout. unfold invoked. intros Hin.
           apply fold_update_keys. now right.
  - destruct Hcompl as [[so H]|H]; discriminate.
  - destruct Hcompl as [[so H]|H]; discriminate.
  - split.
    + split; [intros [e He]; discriminate | intros [so [H _]]; discriminate].
    + intros e He. discriminate.
Qed.

(** C6: whenever [run_activity] raises [ActivityError], the [__cause__] of
    the error is the first exception among the handlers' outcomes: the
    exception of the first entry of the accumulated mapping, in the
    mapping's own order, that carries one. *)
Theorem run_activity_cause fuel lifecycle registry settings activity m e :
  completion (run_activity fuel lifecycle registry settings activity m)
    = Raised e ->
  exists before h o after,
    outcomes e = before ++ (h, o) :: after /\
    Forall (fun ho => exception (snd ho) = None) before /\
    exception o = Some (cause__ e).
Proof.
  rewrite run_activity_run. simpl.
  destruct (completion (batch fuel lifecycle registry settings activity m))
    as [so|e0| |] eqn:Eloop; try discriminate.
  - destruct (exceptions (snd so)) as [|x xs] eqn:Ex; [discriminate|].
    intros [= <-]. simpl. now apply exceptions_first in Ex.
  - pose proof (@run_activity_loop_completion C fuel lifecycle settings
                (get_handlers registry activity)
                {| logger := ("kopf.activities." ++ Activity_value activity)%string;
                   activity := activity; settings := settings |}
                (from_scratch (get_handlers registry activity)) [] m) as Hc.
    fold (batch fuel lifecycle registry settings activity) in Hc.
    rewrite Eloop in Hc. destruct Hc as [[so H]|H]; discriminate.
Qed.

Lemma run_activity_empty_batch fuel lifecycle registry settings activity m :
  get_handlers registry activity = [] ->
  run_activity fuel lifecycle registry settings activity m =
  {| completion := Returned [];
     machine := m;
     events := [Ev_run_activity lifecycle activity] |}.
Proof.
  intros H. rewrite run_activity_run. unfold batch. rewrite H.
  rewrite run_activity_loop_done by reflexivity. reflexivity.
Qed.

(** C8: when the registry has no handler for the activity, [run_activity]
    completes at once, whatever the fuel: it executes no handler, does not
    sleep, raises nothing and returns an empty mapping, the fresh state of
    no handlers being done. *)
Theorem run_activity_no_handlers fuel lifecycle registry settings activity m :
  get_handlers registry activity = [] ->
  done (from_scratch (get_handlers registry activity)) = true /\
  run_activity fuel lifecycle registry settings activity m =
  {| completion := Returned [];
     machine := m;
     events := [Ev_run_activity lifecycle activity] |}.
Proof.
  intros H. split; [now rewrite H | now apply run_activity_empty_batch].
Qed.

End BatchClaims.

Section PassClaims.
Context {C : Collaborators}.
Local Open Scope run_scope.

Lemma results_items_keys (o : Outcomes) h :
  In h (Dict.keys
          (flat_map (fun ho : HandlerId * Outcome =>
                       match result (snd ho) with
                       | Some r => [(fst ho, r)]
                       | None => []
                       end) o)) ->
  In h (Dict.keys o).
Proof.
  unfold Dict.keys. induction o as [|[k oc] o IH]; simpl; [auto|].
  rewrite map_app, in_app_iff. intros [H|H]; [|right; auto].
  destruct (result oc); simpl in H; [|contradiction].
  destruct H as [<-|[]]. now left.
Qed.

Lemma results_items_NoDup (o : Outcomes) :
  NoDup (Dict.keys o) ->
  NoDup (Dict.keys
           (flat_map (fun ho : HandlerId * Outcome =>
                        match result (snd ho) with
                        | Some r => [(fst ho, r)]
                        | None => []
                        end) o)).
Proof.
  induction o as [|[k oc] o IH]; simpl; intros Hd; [constructor|].
  inversion Hd as [|? ? Hk Hd']; subst.
  unfold Dict.keys. rewrite map_app.
  destruct (result oc); simpl; [|now apply IH].
  constructor; [|now apply IH].
  intros H. apply Hk. now apply results_items_keys.
Qed.

(** On a well-formed mapping, [results] keeps exactly the entries whose
    outcome has a result, with that result. *)
Lemma results_spec (o : Outcomes) h r :
  NoDup (Dict.keys o) ->
  (In (h, r) (results o) <->
   exists oc, In (h, oc) o /\ result oc = Some r).
Proof.
  intros Hd. unfold results.
  rewrite DictFacts.of_items_NoDup by now apply results_items_NoDup.
  rewrite in_flat_map. split.
  - intros [[k oc] [Hin Hr]]. simpl in Hr.
    destruct (result oc) eqn:E; [|contradiction].
    destruct Hr as [[= <- <-]|[]]. now exists oc.
  - intros [oc [Hin Hr]]. exists (h, oc). split; [assumption|].
    simpl. rewrite Hr. now left.
Qed.

Lemma results_NoDup (o : Outcomes) : NoDup (Dict.keys (results o)).
Proof. apply DictFacts.NoDup_of_items. Qed.

Lemma result_success (oc : Outcome) r :
  result oc = Some r <-> oc = Success (Some r).
Proof.
  destruct oc as [[v|]| | |]; simpl; split; intros H;
    try discriminate; congruence.
Qed.

(** A batch of at least one handler, all of which succeed on the first
    pass, is over after that pass. *)
Lemma first_pass_success_nonempty
    fuel lifecycle registry settings activity m :
  let handlers := get_handlers registry activity in
  let cause :=
    {| logger := ("kopf.activities." ++ Activity_value activity)%string;
       activity := activity;
       settings := settings |} in
  let answer :=
    fst (execute_handlers_once lifecycle settings handlers cause
           (from_scratch handlers) (world m)) in
  let run := run_activity (S fuel) lifecycle registry settings activity m in
  handlers <> [] ->
  NoDup (Dict.keys answer) ->
  (forall handler, In handler handlers ->
                   In (handler_id handler) (Dict.keys answer)) ->
  (forall h o, In (h, o) answer -> exists r, o = Success r) ->
  completion run = Returned (results answer) /\
  (forall h r, In (h, r) (results answer) <->
               In (h, Success (Some r)) answer) /\
  events run =
    [Ev_run_activity lifecycle activity;
     Ev_execute_handlers_once lifecycle (from_scratch handlers) answer].
Proof.
  cbv zeta. intros Hne Hnd Hall Hok.
  set (handlers := get_handlers registry activity) in *.
  set (cause := {| logger := _; activity := _; settings := _ |}).
  set (answer := fst (execute_handlers_once lifecycle settings handlers cause
                        (from_scratch handlers) (world m))) in *.
  assert (Hres : forall h o, In (h, o) (with_outcomes (from_scratch handlers) answer) ->
                             resolved o = true).
  { intros h o Hin. unfold with_outcomes, outcomes_update in Hin.
    apply DictFacts.in_update in Hin; [|apply from_scratch_NoDup].
    destruct Hin as [Hin|[Hin Hno]].
    - destruct (Hok _ _ Hin) as [r ->]. reflexivity.
    - exfalso. apply Hno.
      apply (in_map fst) in Hin. simpl in Hin.
      apply from_scratch_keys in Hin. apply in_map_iff in Hin.
      destruct Hin as [handler [<- Hh]]. now apply Hall. }
  assert (Hdone : done (with_outcomes (from_scratch handlers) answer) = true)
    by now apply done_forall.
  assert (Hlim : limited_delay (with_outcomes (from_scratch handlers) answer) = None).
  { unfold limited_delay. now rewrite (delay_none _ Hres). }
  assert (Hacc : outcomes_update [] answer = answer).
  { unfold outcomes_update. now rewrite DictFacts.update_fresh. }
  rewrite run_activity_run. unfold batch. fold handlers. fold cause.
  rewrite run_activity_loop_step by now apply from_scratch_done.
  rewrite bind_run, run_activity_pass_run. simpl. fold answer.
  rewrite Hlim, Hacc. rewrite run_activity_loop_done by exact Hdone.
  simpl.
  assert (Hex : exceptions answer = []).
  { destruct (exceptions answer) eqn:E; [reflexivity|]. exfalso.
    assert (Hn : exceptions answer <> []) by (rewrite E; discriminate).
    apply exceptions_nonempty in Hn. destruct Hn as [h [oc [x [Hin Hx]]]].
    destruct (Hok _ _ Hin) as [r ->]. discriminate. }
  rewrite Hex. repeat split.
  - intros Hin. apply results_spec in Hin; [|assumption].
    destruct Hin as [oc [Hin Hr]]. apply result_success in Hr. now subst.
  - intros Hin. apply results_spec; [assumption|].
    exists (Success (Some r)). now split.
Qed.

(** C3: when every handler succeeds on the first pass, [run_activity]
    returns, after that one pass and without sleeping, the mapping that
    holds exactly the handlers whose outcome has a result; handlers with
    no result are left out.  (With no handler at all there is no pass and
    the mapping is empty.) *)
Theorem run_activity_first_pass_success
    fuel lifecycle registry settings activity m :
  let handlers := get_handlers registry activity in
  let cause :=
    {| logger := ("kopf.activities." ++ Activity_value activity)%string;
       activity := activity;
       settings := settings |} in
  let answer :=
    fst (execute_handlers_once lifecycle settings handlers cause
           (from_scratch handlers) (world m)) in
  let run := run_activity (S fuel) lifecycle registry settings activity m in
  let accumulated : Outcomes :=
    match handlers with [] => [] | _ :: _ => answer end in
  NoDup (Dict.keys answer) ->
  (forall handler, In handler handlers ->
                   In (handler_id handler) (Dict.keys answer)) ->
  (forall h o, In (h, o) answer -> exists r, o = Success r) ->
  completion run = Returned (results accumulated) /\
  (forall h r, In (h, r) (results accumulated) <->
               In (h, Success (Some r)) accumulated) /\
  (forall q, ~ In (Ev_sleep_or_wait q) (events run)) /\
  events run =
    Ev_run_activity lifecycle activity
    :: match handlers with
       | [] => []
       | _ :: _ =>
           [Ev_execute_handlers_once lifecycle (from_scratch handlers) answer]
       end.
Proof.
  cbv zeta. intros Hnd Hall Hok.
  pose proof (first_pass_success_nonempty fuel lifecycle registry settings
                activity m) as Hone.
  cbv zeta in Hone.
  destruct (get_handlers registry activity) as [|h0 hs] eqn:Hh.
  - rewrite run_activity_empty_batch by exact Hh.
    simpl. split; [reflexivity|].
    split; [intros h r; split; intros []|].
    split; [|reflexivity].
    intros q [H|[]]. discriminate H.
  - destruct (Hone ltac:(discriminate) Hnd Hall Hok) as [Hc [Hr He]].
    split; [exact Hc|]. split; [exact Hr|]. split; [|exact He].
    rewrite He. intros q [H|[H|[]]]; discriminate H.
Qed.

Lemma positive_truthy (d : Q) : (0 < d)%Q -> Qeq_bool d 0 = false.
Proof.
  intros Hd. destruct (Qeq_bool d 0) eqn:E; [|reflexivity].
  apply Qeq_bool_eq in E. rewrite E in Hd. now apply Qlt_irrefl in Hd.
Qed.

Lemma limited_delay_le (state : State) q :
  limited_delay state = Some q -> (q <= WAITING_KEEPALIVE_INTERVAL)%Q.
Proof.
  unfold limited_delay. destruct (delay state) as [d|]; [|discriminate].
  destruct (Qeq_bool d 0); [discriminate|]. intros [= <-]. apply Q.le_min_r.
Qed.

(** In the loop, a pass whose merged state reports a positive delay is
    followed by the capped sleep. *)
Lemma run_activity_loop_sleep fuel lifecycle settings handlers cause
    state outcomes m before l st co after d :
  events (run_activity_loop fuel lifecycle settings handlers cause
                            state outcomes m)
    = before ++ Ev_execute_handlers_once l st co :: after ->
  delay (with_outcomes st co) = Some d ->
  (0 < d)%Q ->
  exists after',
    after = Ev_sleep_or_wait (Qmin d WAITING_KEEPALIVE_INTERVAL) :: after'.
Proof.
  revert state outcomes m before.
  induction fuel as [|fuel IH]; intros state outcomes m before;
    destruct (done state) eqn:Hd.
  - rewrite run_activity_loop_done by assumption. simpl.
    intros H. now destruct before.
  - simpl. rewrite Hd. simpl. intros H. now destruct before.
  - rewrite run_activity_loop_done by assumption. simpl.
    intros H. now destruct before.
  - rewrite run_activity_loop_step, bind_run, run_activity_pass_run
      by assumption.
    simpl. intros Hev Hdelay Hpos.
    destruct before as [|b before]; simpl in Hev.
    + injection Hev as -> -> -> Hafter.
      unfold limited_delay in Hafter. rewrite Hdelay in Hafter.
      rewrite (positive_truthy Hpos) in Hafter. simpl in Hafter.
      eexists. symmetry. exact Hafter.
    + injection Hev as _ Hev.
      destruct (limited_delay _) as [q|]; simpl in Hev.
      * destruct before as [|b' before]; simpl in Hev; [discriminate|].
        injection Hev as _ Hev. exact (IH _ _ _ _ Hev Hdelay Hpos).
      * exact (IH _ _ _ _ Hev Hdelay Hpos).
Qed.

Lemma run_activity_loop_sleeps fuel lifecycle settings handlers cause
    state outcomes m q :
  In (Ev_sleep_or_wait q)
     (events (run_activity_loop fuel lifecycle settings handlers cause
                                state outcomes m)) ->
  (q <= WAITING_KEEPALIVE_INTERVAL)%Q.
Proof.
  revert state outcomes m.
  induction fuel as [|fuel IH]; intros state outcomes m;
    destruct (done state) eqn:Hd.
  - rewrite run_activity_loop_done by assumption. intros [].
  - simpl. rewrite Hd. intros [].
  - rewrite run_activity_loop_done by assumption. intros [].
  - rewrite run_activity_loop_step, bind_run, run_activity_pass_run
      by assumption.
    simpl. intros [H|H]; [discriminate|].
    apply in_app_iff in H. destruct H as [H|H]; [|exact (IH _ _ _ H)].
    destruct (limited_delay _) as [q'|] eqn:E; [|contradiction].
    destruct H as [[= <-]|[]]. exact (limited_delay_le _ E).
Qed.

(** C4: in every run of [run_activity], a pass after which the merged
    state reports a positive delay is followed, before the next pass, by a
    sleep of exactly [min(state.delay, WAITING_KEEPALIVE_INTERVAL)], which
    does not exceed the cap; nor does any other sleep of the run. *)
Theorem run_activity_sleep_capped
    fuel lifecycle registry settings activity m before l state co after d :
  let run := run_activity fuel lifecycle registry settings activity m in
  events run = before ++ Ev_execute_handlers_once l state co :: after ->
  delay (with_outcomes state co) = Some d ->
  (0 < d)%Q ->
  (exists after',
     after = Ev_sleep_or_wait (Qmin d WAITING_KEEPALIVE_INTERVAL) :: after') /\
  (Qmin d WAITING_KEEPALIVE_INTERVAL <= WAITING_KEEPALIVE_INTERVAL)%Q /\
  (forall q, In (Ev_sleep_or_wait q) (events run) ->
             (q <= WAITING_KEEPALIVE_INTERVAL)%Q).
Proof.
  cbv zeta. rewrite run_activity_run. simpl. intros Hev Hdelay Hpos.
  repeat split.
  - destruct before as [|b before]; simpl in Hev; [discriminate|].
    injection Hev as _ Hev. unfold batch in Hev.
    eapply run_activity_loop_sleep; eassumption.
  - apply Q.le_min_r.
  - intros q [H|H]; [discriminate|]. unfold batch in H.
    eapply run_activity_loop_sleeps; eassumption.
Qed.

End PassClaims.

(* ===================================================================== *)
(** ** Facts about one authentication attempt *)
(* ===================================================================== *)

Section AttemptFacts.
Context {C : Collaborators}.
Local Open Scope run_scope.

Lemma bind_events {A B : Type} (c : M A) (k : A -> M B) (m : Machine) :
  events (bind c k m) =
  events (c m) ++
  match completion (c m) with
  | Returned a => events (k a (machine (c m)))
  | _ => []
  end.
Proof.
  rewrite bind_run.
  destruct (completion (c m)); simpl; now rewrite ?app_nil_r.
Qed.

(** [wait_for_emptiness] returns on an empty vault or not at all. *)
Lemma wait_for_emptiness_run m :
  (completion (wait_for_emptiness m) = Returned tt /\
   events (wait_for_emptiness m)
     = [Ev_wait_for_emptiness (vault (machine (wait_for_emptiness m)))] /\
   is_empty (vault (machine (wait_for_emptiness m))) = true) \/
  (completion (wait_for_emptiness m) = Suspended /\
   events (wait_for_emptiness m) = []).
Proof.
  unfold wait_for_emptiness.
  destruct (is_empty (vault m)) eqn:E; [left; simpl; auto|].
  destruct (invalidated (world m)) as [ks w].
  destruct (is_empty (invalidate ks (vault m))) eqn:E'; simpl; auto.
Qed.

Lemma authenticate_opening_run title m :
  (completion (authenticate_opening title m) = Returned tt /\
   events (authenticate_opening title m)
     = [Ev_wait_for_emptiness (vault (machine (authenticate_opening title m)));
        Ev_log INFO (title ++ " has been initiated.")%string] /\
   is_empty (vault (machine (authenticate_opening title m))) = true) \/
  (completion (authenticate_opening title m) = Suspended /\
   events (authenticate_opening title m) = []).
Proof.
  unfold authenticate_opening. rewrite bind_run.
  destruct (wait_for_emptiness_run m) as [[Hc [He Hv]]|[Hc He]];
    rewrite Hc; simpl.
  - left. rewrite He. auto.
  - right. auto.
Qed.

(** An attempt, read off its opening and its batch. *)
Lemma authenticate_run fuel registry settings title m :
  let o := authenticate_opening title m in
  let r := run_activity fuel all_at_once registry settings AUTHENTICATION
                        (machine o) in
  authenticate fuel registry settings title m =
  match completion o with
  | Returned _ =>
      match completion r with
      | Returned activity_results =>
          {| completion := Returned tt;
             machine :=
               {| world := world (machine r);
                  vault := populated (credentials_of activity_results) |};
             events :=
               events o ++ events r ++
               [closing_line title activity_results;
                Ev_populate (credentials_of activity_results)] |}
      | Raised e =>
          {| completion := Raised e;
             machine := machine r;
             events := events o ++ events r |}
      | Suspended =>
          {| completion := Suspended;
             machine := machine r;
             events := events o ++ events r |}
      | Unfinished =>
          {| completion := Unfinished;
             machine := machine r;
             events := events o ++ events r |}
      end
  | Raised e => stop o (Raised e)
  | Suspended => stop o Suspended
  | Unfinished => stop o Unfinished
  end.
Proof.
  cbv zeta. unfold authenticate, authenticate_opening, log, emit.
  generalize (run_activity fuel all_at_once registry settings AUTHENTICATION).
  intros batch_run. unfold bind, stop. simpl.
  destruct (completion (wait_for_emptiness m)) as [[]|e| |]; simpl;
    try reflexivity.
  destruct (completion (batch_run (machine (wait_for_emptiness m))))
    as [ar|e| |]; simpl; try (now rewrite <- app_assoc).
  unfold closing_line, populate.
  destruct (Dict.truthy ar); simpl; rewrite <- !app_assoc; reflexivity.
Qed.

(** [run_activity] never parks, and leaves the vault alone. *)
Lemma run_activity_not_suspended fuel lifecycle registry settings activity m :
  completion (run_activity fuel lifecycle registry settings activity m)
    <> Suspended.
Proof.
  rewrite run_activity_run. simpl. unfold batch.
  destruct (run_activity_loop_completion fuel lifecycle settings
              (get_handlers registry activity)
              {| logger := ("kopf.activities." ++ Activity_value activity)%string;
                 activity := activity; settings := settings |}
              (from_scratch (get_handlers registry activity)) [] m)
    as [[so H]|H]; rewrite H; [|discriminate].
  destruct (exceptions (snd so)); discriminate.
Qed.

Lemma run_activity_vault fuel lifecycle registry settings activity m :
  vault (machine (run_activity fuel lifecycle registry settings activity m))
    = vault m.
Proof.
  rewrite run_activity_run. simpl. unfold batch.
  apply run_activity_loop_vault.
Qed.

(** After its first event, a batch only executes handlers and sleeps. *)
Lemma run_activity_events fuel lifecycle registry settings activity m :
  exists tail,
    events (run_activity fuel lifecycle registry settings activity m)
      = Ev_run_activity lifecycle activity :: tail /\
    Forall (fun ev => is_execute ev = true \/ is_sleep ev = true) tail.
Proof.
  rewrite run_activity_run. simpl. eexists. split; [reflexivity|].
  unfold batch. apply run_activity_loop_events.
Qed.

End AttemptFacts.

(* ===================================================================== *)
(** ** One attempt: when and with what the vault is populated *)
(* ===================================================================== *)

Section AttemptClaims.
Context {C : Collaborators}.
Local Open Scope run_scope.

Lemma run_activity_returned fuel lifecycle registry settings activity m ar :
  completion (run_activity fuel lifecycle registry settings activity m)
    = Returned ar ->
  exists so,
    completion (batch fuel lifecycle registry settings activity m)
      = Returned so /\
    (forall h o, In (h, o) (snd so) -> exception o = None) /\
    ar = results (snd so).
Proof.
  rewrite run_activity_run. simpl.
  destruct (completion (batch fuel lifecycle registry settings activity m))
    as [so|e| |]; try discriminate.
  destruct (exceptions (snd so)) as [|x xs] eqn:Ex; [|discriminate].
  intros [= <-]. exists so. repeat split.
  intros h o Hin. destruct (exception o) as [x|] eqn:E; [|reflexivity].
  exfalso. assert (Hn : exceptions (snd so) <> []).
  { apply exceptions_nonempty. now exists h, o, x. }
  now apply Hn.
Qed.

Lemma opening_no_populate title m :
  Forall (fun ev => is_populate ev = false)
         (events (authenticate_opening title m)).
Proof.
  destruct (authenticate_opening_run title m) as [[_ [He _]]|[_ He]];
    rewrite He; repeat constructor.
Qed.

Lemma run_activity_no_populate fuel lifecycle registry settings activity m :
  Forall (fun ev => is_populate ev = false)
         (events (run_activity fuel lifecycle registry settings activity m)).
Proof.
  destruct (run_activity_events fuel lifecycle registry settings activity m)
    as [tail [-> Ht]].
  constructor; [reflexivity|].
  eapply Forall_impl; [|exact Ht].
  intros ev [H|H]; destruct ev; simpl in *; congruence.
Qed.

Lemma closing_line_no_populate title ar :
  is_populate (closing_line title ar) = false.
Proof. unfold closing_line. now destruct (Dict.truthy ar). Qed.

(** C2, as amended: [authenticate] calls [vault.populate] exactly when the
    batch returns, that is when no accumulated outcome carries an
    exception; it then passes the stringified results that were obtained,
    which may be those of only some of the handlers, or none.  When the
    batch raises, the attempt raises the same [ActivityError], [populate]
    is not called and the vault stays as [wait_for_emptiness] found it. *)
Theorem authenticate_populates_iff fuel registry settings title m :
  let opening := authenticate_opening title m in
  let batch_run :=
    run_activity fuel all_at_once registry settings AUTHENTICATION
                 (machine opening) in
  let attempt := authenticate fuel registry settings title m in
  completion opening = Returned tt ->
  (forall activity_results,
     completion batch_run = Returned activity_results ->
     (exists so,
        completion (batch fuel all_at_once registry settings AUTHENTICATION
                          (machine opening)) = Returned so /\
        (forall h o, In (h, o) (snd so) -> exception o = None) /\
        activity_results = results (snd so)) /\
     completion attempt = Returned tt /\
     (exists before,
        events attempt
          = before ++ [Ev_populate (credentials_of activity_results)] /\
        Forall (fun ev => is_populate ev = false) before) /\
     vault (machine attempt) = populated (credentials_of activity_results))
  /\
  (forall e,
     completion batch_run = Raised e ->
     completion attempt = Raised e /\
     Forall (fun ev => is_populate ev = false) (events attempt) /\
     vault (machine attempt) = vault (machine opening)).
Proof.
  cbv zeta. intros Ho. rewrite authenticate_run. cbv zeta. rewrite Ho.
  split.
  - intros ar Hr. rewrite Hr. simpl. repeat split.
    + now apply run_activity_returned.
    + exists (events (authenticate_opening title m) ++
              events (run_activity fuel all_at_once registry settings
                        AUTHENTICATION
                        (machine (authenticate_opening title m))) ++
              [closing_line title ar]).
      split; [now rewrite <- !app_assoc|].
      apply Forall_app. split; [apply opening_no_populate|].
      apply Forall_app. split; [apply run_activity_no_populate|].
      constructor; [apply closing_line_no_populate | constructor].
  - intros e Hr. rewrite Hr. simpl. repeat split.
    + apply Forall_app. split;
        [apply opening_no_populate | apply run_activity_no_populate].
    + apply run_activity_vault.
Qed.

Lemma map_str_NoDup (l : list HandlerId) :
  str_injective -> NoDup l -> NoDup (map str l).
Proof.
  intros Hinj. induction 1 as [|x l Hx Hl IH]; simpl; constructor; auto.
  intros Hin. apply in_map_iff in Hin. destruct Hin as [y [Hy Hin]].
  apply Hinj in Hy. now subst.
Qed.

(** With an injective [str], the comprehension keeps every entry, in
    order. *)
Lemma credentials_of_map (ar : Results) :
  str_injective ->
  NoDup (Dict.keys ar) ->
  credentials_of ar = map (fun hi => (str (fst hi), snd hi)) ar.
Proof.
  intros Hinj Hnd. unfold credentials_of.
  apply DictFacts.of_items_NoDup.
  unfold Dict.keys. rewrite map_map. simpl.
  rewrite <- (map_map fst str). now apply map_str_NoDup.
Qed.

(** C7: in every attempt that completes, the mapping passed to
    [vault.populate] has exactly the entries of the mapping [run_activity]
    returned, each under the string of its handler id and with its value
    unchanged.  ([str] is taken to tell distinct handler ids apart.) *)
Theorem authenticate_populates_results fuel registry settings title m :
  str_injective ->
  completion (authenticate fuel registry settings title m) = Returned tt ->
  exists activity_results before,
    completion (run_activity fuel all_at_once registry settings
                  AUTHENTICATION (machine (authenticate_opening title m)))
      = Returned activity_results /\
    events (authenticate fuel registry settings title m)
      = before ++
        [Ev_populate
           (map (fun hi => (str (fst hi), snd hi)) activity_results)] /\
    Forall (fun ev => is_populate ev = false) before /\
    vault (machine (authenticate fuel registry settings title m))
      = populated (map (fun hi => (str (fst hi), snd hi)) activity_results).
Proof.
  intros Hinj. rewrite authenticate_run. cbv zeta.
  destruct (completion (authenticate_opening title m)) as [[]|e| |] eqn:Ho;
    try discriminate.
  destruct (completion (run_activity fuel all_at_once registry settings
                          AUTHENTICATION
                          (machine (authenticate_opening title m))))
    as [ar|e| |] eqn:Hr; try discriminate.
  intros _. simpl.
  assert (Hcred : credentials_of ar = map (fun hi => (str (fst hi), snd hi)) ar).
  { apply credentials_of_map; [assumption|].
    apply run_activity_returned in Hr. destruct Hr as [so [_ [_ ->]]].
    apply results_NoDup. }
  rewrite Hcred.
  exists ar,
    (events (authenticate_opening title m) ++
     events (run_activity fuel all_at_once registry settings AUTHENTICATION
               (machine (authenticate_opening title m))) ++
     [closing_line title ar]).
  repeat split.
  - now rewrite <- !app_assoc.
  - apply Forall_app. split; [apply opening_no_populate|].
    apply Forall_app. split; [apply run_activity_no_populate|].
    constructor; [apply closing_line_no_populate | constructor].
Qed.

End AttemptClaims.

(* ===================================================================== *)
(** ** The authenticator loop *)
(* ===================================================================== *)

Section LoopClaims.
Context {C : Collaborators}.
Local Open Scope run_scope.

Lemma bind_ret {B : Type} (a : unit) (k : unit -> M B) (m : Machine) :
  bind (ret a) k m = k a m.
Proof. rewrite bind_run. simpl. now destruct (k a m). Qed.

Lemma bind_assoc {A B D : Type} (c : M A) (k : A -> M B) (k' : B -> M D) m :
  bind (bind c k) k' m = bind c (fun a => bind (k a) k') m.
Proof.
  unfold bind, stop.
  destruct (completion (c m)) as [a|e| |]; simpl; try reflexivity.
  destruct (completion (k a (machine (c m)))) as [b|e| |]; simpl;
    try reflexivity.
  now rewrite app_assoc.
Qed.

Lemma bind_ext {A B : Type} (c : M A) (k k' : A -> M B) m :
  (forall a m', k a m' = k' a m') -> bind c k m = bind c k' m.
Proof.
  intros H. rewrite !bind_run.
  destruct (completion (c m)); try reflexivity. now rewrite H.
Qed.

Lemma authenticator_loop_step rounds fuel registry settings counter m :
  authenticator_loop (S rounds) fuel registry settings counter m =
  bind (authenticate fuel registry settings (activity_title counter))
       (fun _ => authenticator_loop rounds fuel registry settings
                                    (counter + 1)) m.
Proof. reflexivity. Qed.

Lemma waits_first_nil : waits_first [].
Proof. intros before l a after H. now destruct before. Qed.

Lemma waits_first_app (x y : list Event) :
  waits_first x -> waits_first y -> waits_first (x ++ y).
Proof.
  intros Hx Hy before l a after Heq.
  symmetry in Heq. apply app_eq_app in Heq.
  destruct Heq as [mid [[Hbe Hye]|[Hxe Hye]]].
  - destruct (Hy mid l a after Hye) as [Hl [Ha [b' [f [t [Hb He]]]]]].
    repeat split; try assumption.
    exists (x ++ b'), f, t. split; [|assumption].
    rewrite Hbe, Hb. now rewrite app_assoc.
  - destruct mid as [|ev mid].
    + simpl in Hye. rewrite app_nil_r in Hxe. subst x.
      destruct (Hy [] l a after (eq_sym Hye)) as [_ [_ [b' [f [t [Hb _]]]]]].
      now destruct b' as [|? [|? ?]].
    + injection Hye as <- ->. exact (Hx before l a mid Hxe).
Qed.

Lemma waits_first_attempt found title (rest : list Event) :
  is_empty found = true ->
  Forall (fun ev => is_run_activity ev = false) rest ->
  waits_first
    ([Ev_wait_for_emptiness found;
      Ev_log INFO (title ++ " has been initiated.")%string] ++
     Ev_run_activity all_at_once AUTHENTICATION :: rest).
Proof.
  intros Hf Hrest before l a after Heq.
  destruct before as [|b1 [|b2 [|b3 before]]]; simpl in Heq;
    try discriminate.
  - injection Heq as <- <- <- <- <-. repeat split.
    exists [], found, title. now split.
  - injection Heq as _ _ _ Heq. exfalso.
    rewrite Forall_forall in Hrest.
    specialize (Hrest (Ev_run_activity l a)).
    rewrite Heq in Hrest. discriminate Hrest.
    apply in_or_app. right. now left.
Qed.

Lemma authenticate_waits_first fuel registry settings title m :
  waits_first (events (authenticate fuel registry settings title m)).
Proof.
  rewrite authenticate_run. cbv zeta.
  destruct (authenticate_opening_run title m) as [[Hc [He Hv]]|[Hc He]];
    rewrite Hc.
  - destruct (run_activity_events fuel all_at_once registry settings
                AUTHENTICATION (machine (authenticate_opening title m)))
      as [tail [Hr Ht]].
    assert (Htail : Forall (fun ev => is_run_activity ev = false) tail).
    { eapply Forall_impl; [|exact Ht].
      intros ev [H|H]; destruct ev; simpl in *; congruence. }
    rewrite He, Hr.
    destruct (completion (run_activity _ _ _ _ _ _)); cbn [events];
      try (now apply waits_first_attempt).
    rewrite <- app_comm_cons. apply waits_first_attempt; [assumption|].
    apply Forall_app. split; [assumption|].
    constructor; [|repeat constructor].
    unfold closing_line. now destruct (Dict.truthy a).
  - simpl. rewrite He. apply waits_first_nil.
Qed.

Lemma authenticator_loop_waits_first rounds fuel registry settings counter m :
  waits_first
    (events (authenticator_loop rounds fuel registry settings counter m)).
Proof.
  revert counter m. induction rounds as [|rounds IH]; intros counter m.
  - apply waits_first_nil.
  - rewrite authenticator_loop_step, bind_events.
    apply waits_first_app; [apply authenticate_waits_first|].
    destruct (completion _); try apply waits_first_nil. apply IH.
Qed.

(** C5: in every run of the authenticator, each batch that is started is
    the authentication batch under the all-at-once policy, and what
    precedes it is a return of [vault.wait_for_emptiness], on a vault with
    no valid entry, followed only by the log line that announces the
    attempt: no batch starts unless that wait has returned. *)
Theorem authenticator_waits_first
    rounds fuel registry settings m before l a after :
  events (authenticator rounds fuel registry settings m)
    = before ++ Ev_run_activity l a :: after ->
  l = all_at_once /\ a = AUTHENTICATION /\
  exists before' found title,
    before = before' ++
             [Ev_wait_for_emptiness found;
              Ev_log INFO (title ++ " has been initiated.")%string] /\
    is_empty found = true.
Proof.
  unfold authenticator. apply authenticator_loop_waits_first.
Qed.

Lemma authenticator_loop_never_returns
    rounds fuel registry settings counter m a :
  completion (authenticator_loop rounds fuel registry settings counter m)
    <> Returned a.
Proof.
  revert counter m. induction rounds as [|rounds IH]; intros counter m.
  - discriminate.
  - rewrite authenticator_loop_step, bind_run.
    destruct (completion (authenticate _ _ _ _ _)); try discriminate.
    simpl. apply IH.
Qed.

Lemma iterations_step n fuel registry settings counter :
  iterations (S n) fuel registry settings counter =
  bind (authenticate fuel registry settings (activity_title counter))
       (fun _ => iterations n fuel registry settings (counter + 1)).
Proof. reflexivity. Qed.

(** After [n] completed iterations the loop is at its top again. *)
Lemma authenticator_loop_split n k fuel registry settings counter m :
  authenticator_loop (n + k) fuel registry settings counter m =
  bind (iterations n fuel registry settings counter)
       (fun _ => authenticator_loop k fuel registry settings
                                    (counter + Z.of_nat n)) m.
Proof.
  revert counter m. induction n as [|n IH]; intros counter m.
  - simpl iterations. rewrite bind_ret. simpl. now rewrite Z.add_0_r.
  - rewrite iterations_step, bind_assoc.
    change (S n + k)%nat with (S (n + k)).
    rewrite authenticator_loop_step.
    apply bind_ext. intros _ m'. rewrite IH.
    replace (counter + 1 + Z.of_nat n)%Z with (counter + Z.of_nat (S n))%Z
      by lia.
    reflexivity.
Qed.

Lemma authenticate_raises_iff fuel registry settings title m e :
  completion (authenticate fuel registry settings title m) = Raised e <->
  completion (authenticate_opening title m) = Returned tt /\
  completion (run_activity fuel all_at_once registry settings AUTHENTICATION
                (machine (authenticate_opening title m))) = Raised e.
Proof.
  rewrite authenticate_run. cbv zeta.
  destruct (authenticate_opening_run title m) as [[Hc _]|[Hc _]]; rewrite Hc.
  - destruct (completion (run_activity _ _ _ _ _ _)); simpl; split;
      try discriminate; try (intros [_ H]; discriminate H).
    + intros [= ->]. now split.
    + intros [_ [= ->]]. reflexivity.
  - simpl. split; [discriminate | intros [H _]; discriminate H].
Qed.

(** The loop raises exactly when, after some number of completed
    iterations, the next attempt raises. *)
Lemma authenticator_loop_raises_iff rounds fuel registry settings counter m e :
  completion (authenticator_loop rounds fuel registry settings counter m)
    = Raised e <->
  exists n,
    (n < rounds)%nat /\
    completion (iterations n fuel registry settings counter m) = Returned tt /\
    completion
      (authenticate fuel registry settings
         (activity_title (counter + Z.of_nat n))
         (machine (iterations n fuel registry settings counter m)))
      = Raised e.
Proof.
  revert counter m. induction rounds as [|rounds IH]; intros counter m.
  - split; [discriminate | intros [n [Hn _]]; lia].
  - rewrite authenticator_loop_step, bind_run.
    destruct (completion (authenticate fuel registry settings
                            (activity_title counter) m))
      as [[]|e'| |] eqn:Ha; simpl.
    + rewrite IH. split.
      * intros [n [Hn [Hi Hr]]]. exists (S n). split; [lia|].
        replace (counter + Z.of_nat (S n))%Z
          with (counter + 1 + Z.of_nat n)%Z by lia.
        rewrite iterations_step, bind_run, Ha. cbn [completion machine].
        now split.
      * intros [[|n] [Hn [Hi Hr]]].
        -- simpl in Hr. rewrite Z.add_0_r in Hr. congruence.
        -- exists n. split; [lia|].
           replace (counter + Z.of_nat (S n))%Z
             with (counter + 1 + Z.of_nat n)%Z in Hr by lia.
           rewrite iterations_step, bind_run, Ha in Hi, Hr.
           cbn [completion machine] in Hi, Hr.
           now split.
    + split.
      * intros [= ->]. exists 0%nat. split; [lia|]. simpl.
        rewrite Z.add_0_r. now split.
      * intros [[|n] [Hn [Hi Hr]]].
        -- simpl in Hr. rewrite Z.add_0_r in Hr. congruence.
        -- rewrite iterations_step, bind_run, Ha in Hi. discriminate Hi.
    + split; [discriminate|].
      intros [[|n] [Hn [Hi Hr]]].
      * simpl in Hr. rewrite Z.add_0_r in Hr. congruence.
      * rewrite iterations_step, bind_run, Ha in Hi. discriminate Hi.
    + split; [discriminate|].
      intros [[|n] [Hn [Hi Hr]]].
      * simpl in Hr. rewrite Z.add_0_r in Hr. congruence.
      * rewrite iterations_step, bind_run, Ha in Hi. discriminate Hi.
Qed.

(** C9: the authenticator never returns normally; after any number of
    completed iterations the loop runs [authenticate] again; it raises
    exactly when, after some completed iterations, the next attempt
    raises, and an attempt raises exactly when its batch does: the
    [ActivityError] of [run_activity] is caught neither in [authenticate]
    nor in [authenticator]. *)
Theorem authenticator_never_returns rounds fuel registry settings m :
  let counter := if Vault_bool (vault m) then 1%Z else 0%Z in
  (forall a,
     completion (authenticator rounds fuel registry settings m)
       <> Returned a) /\
  (forall n k c m',
     authenticator_loop (n + S k) fuel registry settings c m' =
     bind (iterations n fuel registry settings c)
          (fun _ =>
             bind (authenticate fuel registry settings
                     (activity_title (c + Z.of_nat n)))
                  (fun _ => authenticator_loop k fuel registry settings
                              (c + Z.of_nat n + 1))) m') /\
  (forall e,
     completion (authenticator rounds fuel registry settings m) = Raised e <->
     exists n,
       (n < rounds)%nat /\
       completion (iterations n fuel registry settings counter m)
         = Returned tt /\
       completion
         (authenticate fuel registry settings
            (activity_title (counter + Z.of_nat n))
            (machine (iterations n fuel registry settings counter m)))
         = Raised e) /\
  (forall e title m',
     completion (authenticate fuel registry settings title m') = Raised e <->
     completion (authenticate_opening title m') = Returned tt /\
     completion (run_activity fuel all_at_once registry settings
                   AUTHENTICATION (machine (authenticate_opening title m')))
       = Raised e).
Proof.
  cbv zeta. split; [|split; [|split]].
  - intros a. apply authenticator_loop_never_returns.
  - intros n k c m'. rewrite authenticator_loop_split.
    apply bind_ext. intros _ m''. reflexivity.
  - intros e. apply authenticator_loop_raises_iff.
  - intros e title m'. apply authenticate_raises_iff.
Qed.

End LoopClaims.

(* ===================================================================== *)
(** ** The titles under which the attempts are logged *)
(* ===================================================================== *)

Section TitleClaims.
Context {C : Collaborators}.
Local Open Scope run_scope.












End TitleClaims.

(* ===================================================================== *)
(** ** The theorems at work on the scripted world *)
(* ===================================================================== *)

Section Runs.
Import Scenario.
Local Open Scope string_scope.

(** Against C2 as stated: one handler returns credentials and the other
    fails for good; the attempt raises and the vault is never populated,
    so it is not populated regardless of the batch's outcome. *)
Lemma authenticate_skips_populate_on_failure :
  completion (@authenticate scripted 1 ["login1"; "login2"] tt
                "Authentication" one_fails)
    = Raised (@Build_ActivityError scripted
                "One or more handlers failed." one_fails_answer "denied") /\
  events (@authenticate scripted 1 ["login1"; "login2"] tt
            "Authentication" one_fails)
    = [@Ev_wait_for_emptiness scripted [];
       @Ev_log scripted INFO "Authentication has been initiated.";
       @Ev_run_activity scripted concurrently authentication;
       @Ev_execute_handlers_once scripted concurrently
         both_pending one_fails_answer]
  /\
  ~ populates_despite_failure.
Proof.
  split; [reflexivity|]. split; [reflexivity|].
  intros H.
  destruct (H scripted 1%nat ["login1"; "login2"] tt "Authentication"
              one_fails (one_fails_answer, one_fails_answer))
    as [entries Hin].
  - reflexivity.
  - reflexivity.
  - exists "login1", "X". now left.
  - exists "login2", (PermanentFailure "denied"), "denied".
    split; [right; now left | reflexivity].
  - vm_compute in Hin.
    destruct Hin as [Hin|[Hin|[Hin|[Hin|[]]]]]; discriminate Hin.
Qed.

(** C1 at work: the batch with one failing handler raises, and the error
    carries both handlers' outcomes. *)
Lemma run_activity_raises_iff_witness :
  exists e,
    completion (@run_activity scripted 1 concurrently logins tt
                  authentication one_fails) = Raised e /\
    outcomes e = one_fails_answer.
Proof.
  destruct (@run_activity_raises_iff scripted 1%nat concurrently logins tt
              authentication one_fails) as [[_ Hraise] Hcarry].
  destruct Hraise as [e He].
  { exists (one_fails_answer, one_fails_answer).
    split; [reflexivity|]. split; [reflexivity|].
    exists "login2", (PermanentFailure "denied"), "denied".
    split; [right; now left | reflexivity]. }
  exists e. split; [exact He|].
  destruct (Hcarry e He) as [so [Hso [Ho _]]].
  rewrite Ho. vm_compute in Hso. injection Hso as <-. reflexivity.
Defined.

(** C2 as amended, at work on the same attempt. *)
Lemma authenticate_populates_iff_witness :
  completion (@authenticate_opening scripted "Authentication" one_fails)
    = Returned tt /\
  (completion (@authenticate scripted 1 logins tt "Authentication" one_fails)
     = Raised (@Build_ActivityError scripted
                 "One or more handlers failed." one_fails_answer "denied") /\
   Forall (fun ev => is_populate ev = false)
          (events (@authenticate scripted 1 logins tt "Authentication"
                     one_fails)) /\
   vault (machine (@authenticate scripted 1 logins tt "Authentication"
                     one_fails))
     = vault (machine (@authenticate_opening scripted "Authentication"
                         one_fails))).
Proof.
  split; [reflexivity|].
  destruct (@authenticate_populates_iff scripted 1%nat logins tt
              "Authentication" one_fails eq_refl) as [_ Hraise].
  apply Hraise. reflexivity.
Defined.

(** C3 at work: both handlers succeed at once, one without a result. *)
Lemma run_activity_first_pass_success_witness :
  NoDup (Dict.keys all_succeed_answer) /\
  (forall handler, In handler logins ->
                   In handler (Dict.keys all_succeed_answer)) /\
  (forall h o, In (h, o) all_succeed_answer -> exists r, o = Success r) /\
  completion (@run_activity scripted 1 concurrently logins tt authentication
                all_succeed) = Returned [("login1", "X")] /\
  (forall q,
     ~ In (Ev_sleep_or_wait q)
          (events (@run_activity scripted 1 concurrently logins tt
                     authentication all_succeed))) /\
  events (@run_activity scripted 1 concurrently logins tt authentication
            all_succeed)
    = [@Ev_run_activity scripted concurrently authentication;
       @Ev_execute_handlers_once scripted concurrently both_pending
         all_succeed_answer].
Proof.
  assert (H2 : NoDup (Dict.keys all_succeed_answer)).
  { constructor; [intros [H|[]]; discriminate H|].
    constructor; [intros []|constructor]. }
  assert (H3 : forall handler, In handler logins ->
                               In handler (Dict.keys all_succeed_answer)).
  { intros handler Hin. exact Hin. }
  assert (H4 : forall h o, In (h, o) all_succeed_answer ->
                           exists r, o = Success r).
  { intros h o [[= _ <-]|[[= _ <-]|[]]]; eexists; reflexivity. }
  destruct (@run_activity_first_pass_success scripted 0%nat concurrently
              logins tt authentication all_succeed H2 H3 H4)
    as [Hc [_ [Hs He]]].
  repeat split; assumption.
Defined.

(** C4 at work: a handler asks for an hour, the runner sleeps 10 seconds. *)
Lemma run_activity_sleep_capped_witness :
  events (@run_activity scripted 2 concurrently ["login1"] tt authentication
            long_backoff)
    = ([@Ev_run_activity scripted concurrently authentication] ++
       @Ev_execute_handlers_once scripted concurrently login1_pending
         backoff_answer
       :: [@Ev_sleep_or_wait scripted 10%Q;
           @Ev_execute_handlers_once scripted concurrently backoff_answer
             [("login1", Success None)]])%list /\
  delay (with_outcomes login1_pending backoff_answer) = Some 3600%Q /\
  (0 < 3600)%Q /\
  ((exists after',
      [@Ev_sleep_or_wait scripted 10%Q;
       @Ev_execute_handlers_once scripted concurrently backoff_answer
         [("login1", Success None)]]
      = Ev_sleep_or_wait
          (Qmin 3600 (@WAITING_KEEPALIVE_INTERVAL scripted)) :: after') /\
   (Qmin 3600 (@WAITING_KEEPALIVE_INTERVAL scripted)
      <= @WAITING_KEEPALIVE_INTERVAL scripted)%Q /\
   forall q,
     In (Ev_sleep_or_wait q)
        (events (@run_activity scripted 2 concurrently ["login1"] tt
                   authentication long_backoff)) ->
     (q <= @WAITING_KEEPALIVE_INTERVAL scripted)%Q).
Proof.
  assert (H1 : events (@run_activity scripted 2 concurrently ["login1"] tt
                         authentication long_backoff)
               = ([@Ev_run_activity scripted concurrently authentication] ++
                  @Ev_execute_handlers_once scripted concurrently
                    login1_pending backoff_answer
                  :: [@Ev_sleep_or_wait scripted 10%Q;
                      @Ev_execute_handlers_once scripted concurrently
                        backoff_answer [("login1", Success None)]])%list)
    by reflexivity.
  assert (H2 : delay (with_outcomes login1_pending backoff_answer)
               = Some 3600%Q) by reflexivity.
  assert (H3 : (0 < 3600)%Q) by reflexivity.
  split; [exact H1|]. split; [exact H2|]. split; [exact H3|].
  exact (@run_activity_sleep_capped scripted 2%nat concurrently
           ["login1"] tt authentication long_backoff _ _ _ _ _ _ H1 H2 H3).
Defined.

(** C5 at work: the clients reject the stored credential, the wait
    returns, and only then does the batch start. *)
Lemma authenticator_waits_first_witness :
  events (@authenticator scripted 1 5 ["login1"] tt stale)
    = ([@Ev_wait_for_emptiness scripted
          [{| key := "login1"; info := "W"; validity := invalid |}];
        @Ev_log scripted INFO "Re-authentication has been initiated."] ++
       @Ev_run_activity scripted concurrently authentication
       :: [@Ev_execute_handlers_once scripted concurrently login1_pending
             [("login1", Success (Some "X"))];
           @Ev_log scripted INFO "Re-authentication has finished.";
           @Ev_populate scripted [("login1", "X")]])%list /\
  (concurrently = @all_at_once scripted /\
   authentication = @AUTHENTICATION scripted /\
   exists before' found title,
     [@Ev_wait_for_emptiness scripted
        [{| key := "login1"; info := "W"; validity := invalid |}];
      @Ev_log scripted INFO "Re-authentication has been initiated."]
     = (before' ++ [Ev_wait_for_emptiness found;
                    Ev_log INFO (title ++ " has been initiated.")%string])%list
     /\
     is_empty found = true).
Proof.
  assert (H : events (@authenticator scripted 1 5 ["login1"] tt stale)
    = ([@Ev_wait_for_emptiness scripted
          [{| key := "login1"; info := "W"; validity := invalid |}];
        @Ev_log scripted INFO "Re-authentication has been initiated."] ++
       @Ev_run_activity scripted concurrently authentication
       :: [@Ev_execute_handlers_once scripted concurrently login1_pending
             [("login1", Success (Some "X"))];
           @Ev_log scripted INFO "Re-authentication has finished.";
           @Ev_populate scripted [("login1", "X")]])%list) by reflexivity.
  split; [exact H|].
  exact (@authenticator_waits_first scripted 1%nat 5%nat ["login1"] tt stale
           _ _ _ _ H).
Defined.

(** C6 at work: the cause is the exception of the first failing entry. *)
Lemma run_activity_cause_witness :
  completion (@run_activity scripted 1 concurrently logins tt authentication
                one_fails)
    = Raised (@Build_ActivityError scripted
                "One or more handlers failed." one_fails_answer "denied") /\
  exists before h o after,
    one_fails_answer = (before ++ (h, o) :: after)%list /\
    Forall (fun ho => exception (snd ho) = None) before /\
    exception o = Some "denied".
Proof.
  assert (H : completion (@run_activity scripted 1 concurrently logins tt
                            authentication one_fails)
              = Raised (@Build_ActivityError scripted
                          "One or more handlers failed." one_fails_answer
                          "denied")) by reflexivity.
  split; [exact H|].
  exact (@run_activity_cause scripted 1%nat concurrently logins tt
           authentication one_fails _ H).
Defined.

(** The order in C6 is that of the mapping, where a handler keeps the
    position of its first outcome: the cause can be an exception of a later
    pass than another handler's. *)
Example cause_follows_mapping_order :
  completion (@run_activity scripted 2 concurrently logins tt authentication
                late_failure)
    = Raised (@Build_ActivityError scripted
                "One or more handlers failed." late_failure_outcomes
                "expired").
Proof. reflexivity. Qed.

(** C7 at work, on the scenario of the spec: X at once, Y after a retry. *)
Lemma authenticate_populates_results_witness :
  @str_injective scripted /\
  completion (@authenticate scripted 5 logins tt "Authentication" retry_once)
    = Returned tt /\
  exists activity_results before,
    completion (@run_activity scripted 5 concurrently logins tt
                  authentication
                  (machine (@authenticate_opening scripted "Authentication"
                              retry_once)))
      = Returned activity_results /\
    events (@authenticate scripted 5 logins tt "Authentication" retry_once)
      = (before ++
         [Ev_populate
            (map (fun hi => (@str scripted (fst hi), snd hi))
                 activity_results)])%list /\
    Forall (fun ev => is_populate ev = false) before /\
    vault (machine (@authenticate scripted 5 logins tt "Authentication"
                      retry_once))
      = populated (map (fun hi => (@str scripted (fst hi), snd hi))
                       activity_results).
Proof.
  assert (H1 : @str_injective scripted) by (intros a b H; exact H).
  assert (H2 : completion (@authenticate scripted 5 logins tt
                             "Authentication" retry_once) = Returned tt)
    by reflexivity.
  split; [exact H1|]. split; [exact H2|].
  exact (@authenticate_populates_results scripted 5%nat logins tt
           "Authentication" retry_once H1 H2).
Defined.

(** C8 at work: no login handler is registered. *)
Lemma run_activity_no_handlers_witness :
  @get_handlers scripted [] authentication = [] /\
  (done (from_scratch (@get_handlers scripted [] authentication)) = true /\
   @run_activity scripted 0 concurrently [] tt authentication (start [])
   = {| completion := Returned [];
        machine := start [];
        events := [@Ev_run_activity scripted concurrently authentication] |}).
Proof.
  split; [reflexivity|].
  exact (@run_activity_no_handlers scripted 0%nat concurrently [] tt
           authentication (start []) eq_refl).
Defined.

(** C9 at work: the authenticator does not return; it leaves by the
    error of the first attempt. *)
Lemma authenticator_never_returns_witness :
  completion (@authenticator scripted 3 5 logins tt one_fails)
    <> Returned tt /\
  completion (@authenticator scripted 3 5 logins tt one_fails)
    = Raised (@Build_ActivityError scripted
                "One or more handlers failed." one_fails_answer "denied").
Proof.
  destruct (@authenticator_never_returns scripted 3%nat 5%nat logins tt
              one_fails) as [Hnever [_ [Hraise _]]].
  split; [apply Hnever|].
  apply Hraise. exists 0%nat. split; [lia|]. split; reflexivity.
Defined.


End Runs.

(* ===================================================================== *)
(** ** More about the batch runner *)
(* ===================================================================== *)

Section BatchOrder.
Context {C : Collaborators}.
Local Open Scope run_scope.

Lemma batch_outcomes_NoDup fuel lifecycle registry settings activity m so :
  completion (batch fuel lifecycle registry settings activity m)
    = Returned so ->
  NoDup (Dict.keys (snd so)).
Proof.
  intros H. unfold batch in H.
  rewrite (run_activity_loop_outcomes _ _ _ _ _ _ _ _ H).
  apply fold_update_NoDup. constructor.
Qed.

(** X1: [run_activity] returns normally exactly when its loop exits and no
    accumulated outcome carries an exception; the mapping it returns has
    no duplicate handler id and holds exactly the pairs of a handler id
    and the result of its accumulated outcome, for the outcomes that have
    a result. *)
Theorem run_activity_returns_iff fuel lifecycle registry settings activity m :
  let loop := batch fuel lifecycle registry settings activity m in
  let run := run_activity fuel lifecycle registry settings activity m in
  ((exists ar, completion run = Returned ar) <->
   (exists so,
      completion loop = Returned so /\
      forall h o, In (h, o) (snd so) -> exception o = None))
  /\
  (forall ar, completion run = Returned ar ->
     exists so,
       completion loop = Returned so /\
       NoDup (Dict.keys ar) /\
       forall h r,
         In (h, r) ar <-> exists o, In (h, o) (snd so) /\ result o = Some r).
Proof.
  cbv zeta. split.
  - split.
    + intros [ar Har]. apply run_activity_returned in Har.
      destruct Har as [so [Hso [Hex _]]]. now exists so.
    + intros [so [Hso Hex]]. rewrite run_activity_run. simpl. rewrite Hso.
      destruct (exceptions (snd so)) as [|x xs] eqn:Ex;
        [eexists; reflexivity|].
      exfalso.
      assert (Hn : exceptions (snd so) <> []) by (rewrite Ex; discriminate).
      apply exceptions_nonempty in Hn.
      destruct Hn as [h [o [x' [Hin Hx]]]].
      rewrite (Hex _ _ Hin) in Hx. discriminate.
  - intros ar Har. apply run_activity_returned in Har.
    destruct Har as [so [Hso [_ ->]]]. exists so.
    split; [assumption|]. split; [apply results_NoDup|].
    intros h r. apply results_spec.
    now apply (batch_outcomes_NoDup _ _ _ _ _ _ Hso).
Qed.

Lemma fold_update_keeps (ps : list Outcomes) (d : Outcomes) h o :
  NoDup (Dict.keys d) ->
  ~ In h (flat_map (@Dict.keys HandlerId Outcome) ps) ->
  In (h, o) (fold_left outcomes_update ps d) ->
  In (h, o) d.
Proof.
  revert d. induction ps as [|p ps IH]; intros d Hd Hno Hin; [assumption|].
  simpl in Hin, Hno. rewrite in_app_iff in Hno.
  apply IH in Hin.
  - unfold outcomes_update in Hin.
    apply DictFacts.in_update in Hin; [|assumption].
    destruct Hin as [Hin|[Hin _]]; [|assumption].
    exfalso. apply Hno. left. now apply (in_map fst) in Hin.
  - now apply DictFacts.NoDup_update.
  - tauto.
Qed.

Lemma passes_app (x y : list Event) : passes (x ++ y) = passes x ++ passes y.
Proof. unfold passes. apply flat_map_app. Qed.

(** X2: the accumulated mapping keeps, for each handler, an outcome of the
    last pass that answered it: whatever earlier passes said of the
    handler is overwritten. *)
Theorem run_activity_latest_outcome
    fuel lifecycle registry settings activity m so before l st co after h o :
  completion (batch fuel lifecycle registry settings activity m)
    = Returned so ->
  events (run_activity fuel lifecycle registry settings activity m)
    = before ++ Ev_execute_handlers_once l st co :: after ->
  In h (Dict.keys co) ->
  ~ In h (invoked after) ->
  In (h, o) (snd so) ->
  In (h, o) co.
Proof.
  intros Hso Hev Hco Hlater Hin.
  assert (Hacc : snd so
                 = fold_left outcomes_update
                     (passes (events (run_activity fuel lifecycle registry
                                        settings activity m))) []).
  { rewrite run_activity_run. simpl. unfold batch in Hso.
    exact (run_activity_loop_outcomes _ _ _ _ _ _ _ _ Hso). }
  rewrite Hev, passes_app in Hacc. simpl in Hacc.
  rewrite fold_left_app in Hacc. simpl in Hacc.
  rewrite Hacc in Hin.
  apply fold_update_keeps in Hin; [| |exact Hlater].
  - unfold outcomes_update in Hin.
    apply DictFacts.in_update in Hin.
    + destruct Hin as [Hin|[_ Hno]]; [assumption | contradiction].
    + apply fold_update_NoDup. constructor.
  - apply DictFacts.NoDup_update. apply fold_update_NoDup. constructor.
Qed.

Lemma run_activity_loop_threads fuel lifecycle settings handlers cause
    state outcomes m :
  threads lifecycle state
    (events (run_activity_loop fuel lifecycle settings handlers cause
                               state outcomes m)).
Proof.
  revert state outcomes m.
  induction fuel as [|fuel IH]; intros state outcomes m;
    destruct (done state) eqn:Hd.
  - now rewrite run_activity_loop_done by assumption.
  - simpl. now rewrite Hd.
  - now rewrite run_activity_loop_done by assumption.
  - rewrite run_activity_loop_step, bind_run, run_activity_pass_run
      by assumption.
    cbn [completion machine events fst snd]. simpl threads.
    repeat split; try assumption.
    destruct (limited_delay _); simpl; apply IH.
Qed.

Lemma threads_at lifecycle state (before : list Event) l st co after :
  threads lifecycle state
    (before ++ Ev_execute_handlers_once l st co :: after) ->
  l = lifecycle /\ done st = false /\
  threads lifecycle (with_outcomes st co) after.
Proof.
  revert state. induction before as [|b before IH]; intros state H.
  - simpl in H. destruct H as [-> [-> [Hd Ht]]]. auto.
  - destruct b; simpl in H; try contradiction.
    + destruct H as [_ [_ [_ H]]]. exact (IH _ H).
    + exact (IH _ H).
Qed.

Lemma threads_next lifecycle state (mid : list Event) l st co after :
  Forall (fun ev => is_execute ev = false) mid ->
  threads lifecycle state (mid ++ Ev_execute_handlers_once l st co :: after) ->
  st = state.
Proof.
  induction mid as [|b mid IH]; intros Hmid H.
  - simpl in H. now destruct H as [_ [-> _]].
  - inversion Hmid as [|? ? Hb Hmid']; subst.
    destruct b; simpl in H; try contradiction; try discriminate Hb.
    exact (IH Hmid' H).
Qed.

(** X3: the passes of a run are threaded.  The first execute call is made
    on the fresh state of the registry's handlers; every execute call is
    made under the lifecycle [run_activity] was given and on a state that
    is not done; and the next execute call is made on that state merged
    with the pass's answer. *)
Theorem run_activity_passes_threaded
    fuel lifecycle registry settings activity m :
  let run := run_activity fuel lifecycle registry settings activity m in
  (exists tail,
     events run = Ev_run_activity lifecycle activity :: tail /\
     threads lifecycle (from_scratch (get_handlers registry activity)) tail)
  /\
  (forall before l st co after,
     events run = before ++ Ev_execute_handlers_once l st co :: after ->
     l = lifecycle /\ done st = false) /\
  (forall l st co after,
     events run
       = Ev_run_activity lifecycle activity
         :: Ev_execute_handlers_once l st co :: after ->
     st = from_scratch (get_handlers registry activity)) /\
  (forall before l st co mid l' st' co' after,
     events run
       = before ++ Ev_execute_handlers_once l st co
         :: mid ++ Ev_execute_handlers_once l' st' co' :: after ->
     Forall (fun ev => is_execute ev = false) mid ->
     st' = with_outcomes st co).
Proof.
  cbv zeta. rewrite run_activity_run. cbn [events].
  pose proof (run_activity_loop_threads fuel lifecycle settings
                (get_handlers registry activity)
                {| logger := ("kopf.activities." ++ Activity_value activity)%string;
                   activity := activity; settings := settings |}
                (from_scratch (get_handlers registry activity)) [] m) as Ht.
  fold (batch fuel lifecycle registry settings activity) in Ht.
  split; [|split; [|split]].
  - eexists. split; [reflexivity | exact Ht].
  - intros before l st co after Hev.
    destruct before as [|b before]; [discriminate|].
    injection Hev as _ Hev. rewrite Hev in Ht.
    apply threads_at in Ht. tauto.
  - intros l st co after Hev. injection Hev as Hev. rewrite Hev in Ht.
    simpl in Ht. tauto.
  - intros before l st co mid l' st' co' after Hev Hmid.
    destruct before as [|b before]; [discriminate|].
    injection Hev as _ Hev. rewrite Hev in Ht.
    apply threads_at in Ht. destruct Ht as [_ [_ Ht]].
    now apply threads_next in Ht.
Qed.

Lemma run_activity_loop_sleep_origin fuel lifecycle settings handlers cause
    state outcomes m before q after :
  events (run_activity_loop fuel lifecycle settings handlers cause
                            state outcomes m)
    = before ++ Ev_sleep_or_wait q :: after ->
  exists before' l st co,
    before = before' ++ [Ev_execute_handlers_once l st co] /\
    limited_delay (with_outcomes st co) = Some q.
Proof.
  revert state outcomes m before.
  induction fuel as [|fuel IH]; intros state outcomes m before;
    destruct (done state) eqn:Hd.
  - rewrite run_activity_loop_done by assumption. simpl.
    intros H. now destruct before.
  - simpl. rewrite Hd. simpl. intros H. now destruct before.
  - rewrite run_activity_loop_done by assumption. simpl.
    intros H. now destruct before.
  - rewrite run_activity_loop_step, bind_run, run_activity_pass_run
      by assumption.
    cbn [completion machine events fst snd].
    set (answer := fst (execute_handlers_once lifecycle settings handlers
                          cause state (world m))).
    intros Hev.
    destruct before as [|b before]; simpl in Hev; [discriminate|].
    injection Hev as <- Hev.
    destruct (limited_delay _) as [q0|] eqn:Hl; simpl in Hev.
    + destruct before as [|b' before]; simpl in Hev.
      * injection Hev as <- _. exists [], lifecycle, state, answer.
        split; [reflexivity | exact Hl].
      * injection Hev as <- Hev.
        destruct (IH _ _ _ _ Hev) as [b'' [l [st [co [-> Hq]]]]].
        exists (Ev_execute_handlers_once lifecycle state answer
                :: Ev_sleep_or_wait q0 :: b''), l, st, co.
        split; [reflexivity | exact Hq].
    + destruct (IH _ _ _ _ Hev) as [b'' [l [st [co [-> Hq]]]]].
      exists (Ev_execute_handlers_once lifecycle state answer :: b''),
        l, st, co.
      split; [reflexivity | exact Hq].
Qed.

(** X4: [run_activity] sleeps only right after a pass, at most once per
    pass, and only when the state merged by that pass reports a delay
    that is not zero; the sleep then lasts
    [min(delay, WAITING_KEEPALIVE_INTERVAL)]. *)
Theorem run_activity_sleep_origin
    fuel lifecycle registry settings activity m before q after :
  events (run_activity fuel lifecycle registry settings activity m)
    = before ++ Ev_sleep_or_wait q :: after ->
  exists before' l st co d,
    before = before' ++ [Ev_execute_handlers_once l st co] /\
    delay (with_outcomes st co) = Some d /\
    ~ (d == 0)%Q /\
    q = Qmin d WAITING_KEEPALIVE_INTERVAL.
Proof.
  rewrite run_activity_run. cbn [events]. intros Hev.
  destruct before as [|b before]; [discriminate|].
  injection Hev as <- Hev. unfold batch in Hev.
  apply run_activity_loop_sleep_origin in Hev.
  destruct Hev as [before' [l [st [co [-> Hq]]]]].
  unfold limited_delay in Hq.
  destruct (delay (with_outcomes st co)) as [d|] eqn:Hd; [|discriminate].
  destruct (Qeq_bool d 0) eqn:Hz; [discriminate|].
  injection Hq as <-.
  exists (Ev_run_activity lifecycle activity :: before'), l, st, co, d.
  split; [reflexivity|]. split; [exact Hd|].
  split; [now apply Qeq_bool_neq | reflexivity].
Qed.

(** X5: the only calls [run_activity] makes are [execute_handlers_once]
    and [sleep_or_wait]: it writes no log line, does not wait on the vault
    and does not populate it, and the vault is left as it was. *)
Theorem run_activity_calls fuel lifecycle registry settings activity m :
  let run := run_activity fuel lifecycle registry settings activity m in
  (exists tail,
     events run = Ev_run_activity lifecycle activity :: tail /\
     Forall (fun ev => is_execute ev = true \/ is_sleep ev = true) tail) /\
  (forall ev, In ev (events run) ->
              is_log ev = false /\ is_populate ev = false /\
              forall found, ev <> Ev_wait_for_emptiness found) /\
  vault (machine run) = vault m.
Proof.
  cbv zeta. split; [apply run_activity_events|].
  split; [|apply run_activity_vault].
  destruct (run_activity_events fuel lifecycle registry settings activity m)
    as [tail [-> Ht]].
  intros ev [<-|Hin].
  - repeat split. discriminate.
  - rewrite Forall_forall in Ht. specialize (Ht _ Hin).
    destruct ev; simpl in Ht; destruct Ht as [Ht|Ht]; try discriminate Ht;
      repeat split; discriminate.
Qed.

End BatchOrder.

(* ===================================================================== *)
(** ** More about the attempts *)
(* ===================================================================== *)

Section AttemptOrder.
Context {C : Collaborators}.
Local Open Scope run_scope.

(** X6: an attempt that completes has made, in this order, the wait, the
    line that announces it, the batch, one closing line and the call to
    [populate].  The closing line is the warning that no credentials were
    retrieved exactly when the batch returned an empty mapping, and
    [populate] is then still called, with the empty mapping. *)
Theorem authenticate_anatomy fuel registry settings title m :
  let batch_run :=
    run_activity fuel all_at_once registry settings AUTHENTICATION
                 (machine (authenticate_opening title m)) in
  completion (authenticate fuel registry settings title m) = Returned tt ->
  exists found activity_results closing,
    completion batch_run = Returned activity_results /\
    events (authenticate fuel registry settings title m)
      = [Ev_wait_for_emptiness found;
         Ev_log INFO (title ++ " has been initiated.")%string]
        ++ events batch_run
        ++ [closing; Ev_populate (credentials_of activity_results)] /\
    (activity_results = [] ->
     closing
       = Ev_log WARNING
           (title ++ " has failed: "
              ++ "no credentials were retrieved from the login handlers.")%string
     /\ credentials_of activity_results = []) /\
    (activity_results <> [] ->
     closing = Ev_log INFO (title ++ " has finished.")%string).
Proof.
  cbv zeta. rewrite authenticate_run. cbv zeta.
  destruct (authenticate_opening_run title m) as [[Hc [He _]]|[Hc _]];
    rewrite Hc; [|discriminate].
  destruct (completion (run_activity fuel all_at_once registry settings
                          AUTHENTICATION
                          (machine (authenticate_opening title m))))
    as [ar|e| |] eqn:Hr; try discriminate.
  intros _. cbn [events]. rewrite He.
  exists (vault (machine (authenticate_opening title m))), ar,
    (closing_line title ar).
  split; [reflexivity|]. split; [reflexivity|].
  unfold closing_line. split.
  - intros ->. now split.
  - intros Hne. destruct ar; [contradiction | reflexivity].
Qed.

Lemma of_items_in {K V : Type} (eq_dec : forall a b : K, {a = b} + {a <> b})
    (items : list (K * V)) k v :
  In (k, v) (Dict.of_items eq_dec items) -> In (k, v) items.
Proof.
  unfold Dict.of_items. intros H.
  apply DictFacts.in_update in H; [|constructor].
  destruct H as [H|[[] _]]. exact H.
Qed.

Lemma authenticate_populate_event fuel registry settings title m entries :
  In (Ev_populate entries)
     (events (authenticate fuel registry settings title m)) ->
  exists activity_results,
    completion (run_activity fuel all_at_once registry settings
                  AUTHENTICATION (machine (authenticate_opening title m)))
      = Returned activity_results /\
    entries = credentials_of activity_results.
Proof.
  rewrite authenticate_run. cbv zeta.
  pose proof (opening_no_populate title m) as Ho.
  pose proof (run_activity_no_populate fuel all_at_once registry settings
                AUTHENTICATION (machine (authenticate_opening title m)))
    as Hr.
  rewrite Forall_forall in Ho, Hr.
  assert (Hno : forall evs : list Event,
             (forall ev, In ev evs -> is_populate ev = false) ->
             ~ In (Ev_populate entries) evs).
  { intros evs H Hin. specialize (H _ Hin). discriminate H. }
  destruct (completion (authenticate_opening title m));
    cbn [events stop]; try (intros Hin; exfalso; now apply (Hno _ Ho)).
  destruct (completion (run_activity _ _ _ _ _ _)) as [ar|e| |];
    cbn [events]; intros Hin; apply in_app_iff in Hin;
    destruct Hin as [Hin|Hin]; try (exfalso; now apply (Hno _ Ho));
    try (exfalso; now apply (Hno _ Hr)).
  apply in_app_iff in Hin. destruct Hin as [Hin|Hin];
    [exfalso; now apply (Hno _ Hr)|].
  destruct Hin as [Hin|[Hin|[]]].
  - exfalso. pose proof (closing_line_no_populate title ar) as Hcl.
    rewrite Hin in Hcl. discriminate Hcl.
  - injection Hin as <-. now exists ar.
Qed.

(** X7: whatever [str] does, the mapping an attempt passes to [populate]
    has no duplicate key, each of its entries is the result some handler
    of the batch returned, under the string of that handler's id, and the
    string of every handler id of the batch's mapping is one of its
    keys. *)
Theorem authenticate_populate_entries
    fuel registry settings title m entries :
  In (Ev_populate entries)
     (events (authenticate fuel registry settings title m)) ->
  exists activity_results,
    completion (run_activity fuel all_at_once registry settings
                  AUTHENTICATION (machine (authenticate_opening title m)))
      = Returned activity_results /\
    NoDup (Dict.keys entries) /\
    (forall k info,
       In (k, info) entries ->
       exists h, In (h, info) activity_results /\ k = str h) /\
    (forall h info,
       In (h, info) activity_results -> In (str h) (Dict.keys entries)).
Proof.
  intros Hin. apply authenticate_populate_event in Hin.
  destruct Hin as [ar [Hr ->]]. exists ar.
  split; [assumption|]. split; [apply DictFacts.NoDup_of_items|]. split.
  - intros k info Hk. unfold credentials_of in Hk.
    apply of_items_in in Hk. apply in_map_iff in Hk.
    destruct Hk as [[h i] [[= <- <-] Hi]]. now exists h.
  - intros h info Hh. unfold credentials_of, Dict.of_items.
    apply DictFacts.in_keys_update. right.
    unfold Dict.keys. rewrite map_map. simpl.
    apply in_map_iff. now exists (h, info).
Qed.

Lemma populate_at_end (pre : list Event) c before e after :
  Forall (fun ev => is_populate ev = false) pre ->
  pre ++ [Ev_populate c] = before ++ Ev_populate e :: after ->
  after = [].
Proof.
  revert before. induction pre as [|x pre IH]; intros before Hpre Heq.
  - destruct before as [|b before]; simpl in Heq.
    + now injection Heq as _ <-.
    + injection Heq as _ Heq. now destruct before.
  - inversion Hpre as [|? ? Hx Hpre']; subst.
    destruct before as [|b before]; simpl in Heq.
    + injection Heq as -> _. discriminate Hx.
    + injection Heq as _ Heq. exact (IH _ Hpre' Heq).
Qed.

Lemma authenticate_populate_last fuel registry settings title m
    before entries after :
  events (authenticate fuel registry settings title m)
    = before ++ Ev_populate entries :: after ->
  after = [] /\
  completion (authenticate fuel registry settings title m) = Returned tt.
Proof.
  rewrite authenticate_run. cbv zeta.
  pose proof (opening_no_populate title m) as Ho.
  pose proof (run_activity_no_populate fuel all_at_once registry settings
                AUTHENTICATION (machine (authenticate_opening title m)))
    as Hr.
  assert (Hno : forall evs : list Event,
             Forall (fun ev => is_populate ev = false) evs ->
             evs = before ++ Ev_populate entries :: after -> False).
  { intros evs H Heq. rewrite Heq in H. apply Forall_app in H.
    destruct H as [_ H]. inversion H as [|? ? Hp _]. discriminate Hp. }
  assert (Hor : Forall (fun ev => is_populate ev = false)
                  (events (authenticate_opening title m)
                   ++ events (run_activity fuel all_at_once registry settings
                                AUTHENTICATION
                                (machine (authenticate_opening title m)))))
    by (apply Forall_app; now split).
  destruct (completion (authenticate_opening title m));
    cbn [events stop completion];
    try (intros H; exfalso; now apply (Hno _ Ho)).
  destruct (completion (run_activity _ _ _ _ _ _)) as [ar|e| |];
    cbn [events completion]; intros H;
    try (exfalso; now apply (Hno _ Hor)).
  split; [|reflexivity].
  rewrite app_assoc in H.
  change [closing_line title ar; Ev_populate (credentials_of ar)]
    with ([closing_line title ar] ++ [Ev_populate (credentials_of ar)]) in H.
  rewrite app_assoc in H.
  eapply populate_at_end; [|exact H].
  apply Forall_app. split; [exact Hor|].
  constructor; [apply closing_line_no_populate | constructor].
Qed.

Lemma authenticate_head fuel registry settings title m :
  events (authenticate fuel registry settings title m) = [] \/
  exists found rest,
    events (authenticate fuel registry settings title m)
      = Ev_wait_for_emptiness found :: rest.
Proof.
  rewrite authenticate_run. cbv zeta.
  destruct (authenticate_opening_run title m) as [[Hc [He _]]|[Hc He]];
    rewrite Hc.
  - right. destruct (completion (run_activity _ _ _ _ _ _));
      cbn [events]; rewrite He; eexists; eexists; reflexivity.
  - left. exact He.
Qed.

Lemma authenticator_loop_head rounds fuel registry settings counter m :
  events (authenticator_loop rounds fuel registry settings counter m) = [] \/
  exists found rest,
    events (authenticator_loop rounds fuel registry settings counter m)
      = Ev_wait_for_emptiness found :: rest.
Proof.
  destruct rounds as [|rounds]; [now left|].
  rewrite authenticator_loop_step, bind_events.
  destruct (authenticate_head fuel registry settings
              (activity_title counter) m) as [He|[found [rest He]]].
  - left. rewrite He. simpl.
    destruct (completion (authenticate _ _ _ _ _)) eqn:Hc; try reflexivity.
    exfalso. revert Hc He. rewrite authenticate_run. cbv zeta.
    destruct (authenticate_opening_run (activity_title counter) m)
      as [[Ho [Hev _]]|[Ho _]]; rewrite Ho; [|discriminate].
    destruct (completion (run_activity _ _ _ _ _ _)); cbn [events];
      rewrite Hev; discriminate.
  - right. rewrite He. eexists; eexists; reflexivity.
Qed.

Lemma authenticator_loop_after_populate
    rounds fuel registry settings counter m before entries next after :
  events (authenticator_loop rounds fuel registry settings counter m)
    = before ++ Ev_populate entries :: next :: after ->
  exists found, next = Ev_wait_for_emptiness found.
Proof.
  revert counter m before.
  induction rounds as [|rounds IH]; intros counter m before.
  - simpl. intros H. now destruct before.
  - rewrite authenticator_loop_step, bind_events. intros H.
    apply app_eq_app in H. destruct H as [l [[Hx Hy]|[Hx Hy]]].
    + destruct l as [|a l].
      * rewrite app_nil_r in Hx. simpl in Hy.
        destruct (completion (authenticate _ _ _ _ _)); try discriminate Hy.
        destruct (authenticator_loop_head rounds fuel registry settings
                    (counter + 1)
                    (machine (authenticate fuel registry settings
                                (activity_title counter) m)))
          as [He|[found [rest He]]]; rewrite He in Hy; discriminate Hy.
      * injection Hy as <- Hy.
        apply authenticate_populate_last in Hx. destruct Hx as [-> Hc].
        rewrite Hc in Hy. simpl in Hy.
        destruct (authenticator_loop_head rounds fuel registry settings
                    (counter + 1)
                    (machine (authenticate fuel registry settings
                                (activity_title counter) m)))
          as [He|[found [rest He]]]; rewrite He in Hy;
          [discriminate Hy|].
        injection Hy as -> _. now exists found.
    + destruct (completion (authenticate _ _ _ _ _));
        try (now destruct l).
      exact (IH _ _ _ Hy).
Qed.

(** X8: between two attempts the authenticator does nothing: whatever
    follows a call to [populate] in a run of the authenticator is the
    return of the next [wait_for_emptiness]; the loop neither sleeps nor
    logs in between. *)
Theorem authenticator_after_populate
    rounds fuel registry settings m before entries next after :
  events (authenticator rounds fuel registry settings m)
    = before ++ Ev_populate entries :: next :: after ->
  exists found, next = Ev_wait_for_emptiness found.
Proof.
  unfold authenticator. apply authenticator_loop_after_populate.
Qed.

(** X9: when the batch of an attempt raises, the attempt has made the
    wait, logged the line that announces it and run the batch, and nothing
    more: neither the line that reports the end of the attempt nor the
    warning is logged, and the error leaves [authenticate] as it is. *)
Theorem authenticate_failure_unreported fuel registry settings title m e :
  let batch_run :=
    run_activity fuel all_at_once registry settings AUTHENTICATION
                 (machine (authenticate_opening title m)) in
  completion (authenticate fuel registry settings title m) = Raised e ->
  completion batch_run = Raised e /\
  exists found,
    events (authenticate fuel registry settings title m)
      = [Ev_wait_for_emptiness found;
         Ev_log INFO (title ++ " has been initiated.")%string]
        ++ events batch_run /\
    forall level message,
      In (Ev_log level message)
         (events (authenticate fuel registry settings title m)) ->
      level = INFO /\ message = (title ++ " has been initiated.")%string.
Proof.
  cbv zeta. intros Hraise.
  pose proof Hraise as Hr. apply authenticate_raises_iff in Hr.
  destruct Hr as [Ho Hr]. split; [exact Hr|].
  rewrite authenticate_run. cbv zeta. rewrite Ho, Hr. cbn [events].
  destruct (authenticate_opening_run title m) as [[_ [He _]]|[Hc _]];
    [|congruence].
  rewrite He. eexists. split; [reflexivity|].
  intros level message [Hin|[Hin|Hin]].
  - discriminate Hin.
  - now injection Hin as <- <-.
  - exfalso.
    destruct (run_activity_events fuel all_at_once registry settings
                AUTHENTICATION (machine (authenticate_opening title m)))
      as [tail [Htail Ht]].
    rewrite Htail in Hin. destruct Hin as [Hin|Hin]; [discriminate Hin|].
    rewrite Forall_forall in Ht. specialize (Ht _ Hin).
    destruct Ht as [Ht|Ht]; discriminate Ht.
Qed.

End AttemptOrder.

(* ===================================================================== *)
(** ** These theorems at work on the scripted world *)
(* ===================================================================== *)

Section MoreRuns.
Import Scenario.
Local Open Scope string_scope.

(** X1 at work: X at once and Y after a retry are both returned. *)
Lemma run_activity_returns_iff_witness :
  completion (@run_activity scripted 5 concurrently logins tt authentication
                retry_once)
    = Returned [("login1", "X"); ("login2", "Y")] /\
  NoDup (@Dict.keys string string [("login1", "X"); ("login2", "Y")]).
Proof.
  destruct (@run_activity_returns_iff scripted 5%nat concurrently logins tt
              authentication retry_once) as [_ Hret].
  destruct (Hret [("login1", "X"); ("login2", "Y")] eq_refl)
    as [so [_ [Hnd _]]].
  split; [reflexivity | exact Hnd].
Defined.

(** X2 at work: the second handler asked for a retry in the first pass and
    succeeded in the second; the mapping keeps the success. *)
Lemma run_activity_latest_outcome_witness :
  completion (@batch scripted 5 concurrently logins tt authentication
                retry_once)
    = Returned (retry_accumulated, retry_accumulated) /\
  events (@run_activity scripted 5 concurrently logins tt authentication
            retry_once)
    = ([@Ev_run_activity scripted concurrently authentication;
        @Ev_execute_handlers_once scripted concurrently both_pending
          retry_first_answer;
        @Ev_sleep_or_wait scripted 1%Q] ++
       @Ev_execute_handlers_once scripted concurrently retry_first_answer
         retry_second_answer :: [])%list /\
  In "login2" (Dict.keys retry_second_answer) /\
  ~ In "login2" (@invoked scripted []) /\
  In ("login2", Success (Some "Y")) retry_accumulated /\
  In ("login2", Success (Some "Y")) retry_second_answer.
Proof.
  assert (H1 : completion (@batch scripted 5 concurrently logins tt
                             authentication retry_once)
               = Returned (retry_accumulated, retry_accumulated))
    by reflexivity.
  assert (H2 : events (@run_activity scripted 5 concurrently logins tt
                         authentication retry_once)
               = ([@Ev_run_activity scripted concurrently authentication;
                   @Ev_execute_handlers_once scripted concurrently
                     both_pending retry_first_answer;
                   @Ev_sleep_or_wait scripted 1%Q] ++
                  @Ev_execute_handlers_once scripted concurrently
                    retry_first_answer retry_second_answer :: [])%list)
    by reflexivity.
  assert (H3 : In "login2" (Dict.keys retry_second_answer)) by now left.
  assert (H4 : ~ In "login2" (@invoked scripted [])) by (intros []).
  assert (H5 : In ("login2", Success (Some "Y")) retry_accumulated)
    by (right; now left).
  split; [exact H1|]. split; [exact H2|]. split; [exact H3|].
  split; [exact H4|]. split; [exact H5|].
  exact (@run_activity_latest_outcome scripted 5%nat concurrently logins tt
           authentication retry_once _ _ _ _ _ _ _ _ H1 H2 H3 H4 H5).
Defined.

(** X3 at work, on the same run. *)
Lemma run_activity_passes_threaded_witness :
  exists tail,
    events (@run_activity scripted 5 concurrently logins tt authentication
              retry_once)
      = @Ev_run_activity scripted concurrently authentication :: tail /\
    @threads scripted concurrently (@from_scratch scripted logins) tail.
Proof.
  exact (proj1 (@run_activity_passes_threaded scripted 5%nat concurrently
                  logins tt authentication retry_once)).
Defined.

(** X4 at work: the one sleep of the run follows the pass that asked for
    an hour. *)
Lemma run_activity_sleep_origin_witness :
  events (@run_activity scripted 2 concurrently ["login1"] tt authentication
            long_backoff)
    = ([@Ev_run_activity scripted concurrently authentication;
        @Ev_execute_handlers_once scripted concurrently login1_pending
          backoff_answer] ++
       @Ev_sleep_or_wait scripted 10%Q
       :: [@Ev_execute_handlers_once scripted concurrently backoff_answer
             [("login1", Success None)]])%list /\
  exists before' l st co d,
    [@Ev_run_activity scripted concurrently authentication;
     @Ev_execute_handlers_once scripted concurrently login1_pending
       backoff_answer]
    = (before' ++ [Ev_execute_handlers_once l st co])%list /\
    delay (with_outcomes st co) = Some d /\
    ~ (d == 0)%Q /\
    10%Q = Qmin d (@WAITING_KEEPALIVE_INTERVAL scripted).
Proof.
  assert (H : events (@run_activity scripted 2 concurrently ["login1"] tt
                        authentication long_backoff)
    = ([@Ev_run_activity scripted concurrently authentication;
        @Ev_execute_handlers_once scripted concurrently login1_pending
          backoff_answer] ++
       @Ev_sleep_or_wait scripted 10%Q
       :: [@Ev_execute_handlers_once scripted concurrently backoff_answer
             [("login1", Success None)]])%list) by reflexivity.
  split; [exact H|].
  exact (@run_activity_sleep_origin scripted 2%nat concurrently ["login1"] tt
           authentication long_backoff _ _ _ H).
Defined.

(** X5 at work: a batch run on a vault that holds a credential leaves it
    there. *)
Lemma run_activity_calls_witness :
  vault (machine (@run_activity scripted 5 concurrently ["login1"] tt
                    authentication stale))
    = vault stale.
Proof.
  exact (proj2 (proj2 (@run_activity_calls scripted 5%nat concurrently
                         ["login1"] tt authentication stale))).
Defined.

(** X6 at work: the only handler ends without a result, the attempt warns
    and populates with nothing. *)
Lemma authenticate_anatomy_witness :
  completion (@authenticate scripted 5 ["login1"] tt "Authentication"
                long_backoff) = Returned tt /\
  exists found activity_results closing,
    completion (@run_activity scripted 5 concurrently ["login1"] tt
                  authentication
                  (machine (@authenticate_opening scripted "Authentication"
                              long_backoff)))
      = Returned activity_results /\
    events (@authenticate scripted 5 ["login1"] tt "Authentication"
              long_backoff)
      = ([Ev_wait_for_emptiness found;
          Ev_log INFO ("Authentication" ++ " has been initiated.")]
         ++ events (@run_activity scripted 5 concurrently ["login1"] tt
                      authentication
                      (machine (@authenticate_opening scripted
                                  "Authentication" long_backoff)))
         ++ [closing; Ev_populate (credentials_of activity_results)])%list /\
    (activity_results = [] ->
     closing
       = Ev_log WARNING
           ("Authentication" ++ " has failed: "
              ++ "no credentials were retrieved from the login handlers.")
     /\ credentials_of activity_results = []) /\
    (activity_results <> [] ->
     closing = Ev_log INFO ("Authentication" ++ " has finished.")).
Proof.
  assert (H : completion (@authenticate scripted 5 ["login1"] tt
                            "Authentication" long_backoff) = Returned tt)
    by reflexivity.
  split; [exact H|].
  exact (@authenticate_anatomy scripted 5%nat ["login1"] tt "Authentication"
           long_backoff H).
Defined.

(** X7 at work, on the scenario of the spec. *)
Lemma authenticate_populate_entries_witness :
  In (@Ev_populate scripted [("login1", "X"); ("login2", "Y")])
     (events (@authenticate scripted 5 logins tt "Authentication"
                retry_once)) /\
  exists activity_results,
    completion (@run_activity scripted 5 concurrently logins tt
                  authentication
                  (machine (@authenticate_opening scripted "Authentication"
                              retry_once)))
      = Returned activity_results /\
    NoDup (@Dict.keys string string [("login1", "X"); ("login2", "Y")]) /\
    (forall k info,
       In (k, info) [("login1", "X"); ("login2", "Y")] ->
       exists h, In (h, info) activity_results /\ k = @str scripted h) /\
    (forall h info,
       In (h, info) activity_results ->
       In (@str scripted h)
          (@Dict.keys string string [("login1", "X"); ("login2", "Y")])).
Proof.
  assert (H : In (@Ev_populate scripted [("login1", "X"); ("login2", "Y")])
                 (events (@authenticate scripted 5 logins tt "Authentication"
                            retry_once))).
  { do 7 right. left. reflexivity. }
  split; [exact H|].
  exact (@authenticate_populate_entries scripted 5%nat logins tt
           "Authentication" retry_once _ H).
Defined.

(** X8 at work: two rounds on the vault whose credential the clients
    reject; the second wait comes right after the first [populate]. *)
Lemma authenticator_after_populate_witness :
  events (@authenticator scripted 2 5 ["login1"] tt stale)
    = ([@Ev_wait_for_emptiness scripted
          [{| key := "login1"; info := "W"; validity := invalid |}];
        @Ev_log scripted INFO "Re-authentication has been initiated.";
        @Ev_run_activity scripted concurrently authentication;
        @Ev_execute_handlers_once scripted concurrently login1_pending
          [("login1", Success (Some "X"))];
        @Ev_log scripted INFO "Re-authentication has finished."] ++
       @Ev_populate scripted [("login1", "X")]
       :: @Ev_wait_for_emptiness scripted
            [{| key := "login1"; info := "X"; validity := invalid |}]
       :: [@Ev_log scripted INFO "Re-authentication has been initiated.";
           @Ev_run_activity scripted concurrently authentication;
           @Ev_execute_handlers_once scripted concurrently login1_pending
             [("login1", Success (Some "Z"))];
           @Ev_log scripted INFO "Re-authentication has finished.";
           @Ev_populate scripted [("login1", "Z")]])%list /\
  exists found,
    @Ev_wait_for_emptiness scripted
      [{| key := "login1"; info := "X"; validity := invalid |}]
    = Ev_wait_for_emptiness found.
Proof.
  assert (H : events (@authenticator scripted 2 5 ["login1"] tt stale)
    = ([@Ev_wait_for_emptiness scripted
          [{| key := "login1"; info := "W"; validity := invalid |}];
        @Ev_log scripted INFO "Re-authentication has been initiated.";
        @Ev_run_activity scripted concurrently authentication;
        @Ev_execute_handlers_once scripted concurrently login1_pending
          [("login1", Success (Some "X"))];
        @Ev_log scripted INFO "Re-authentication has finished."] ++
       @Ev_populate scripted [("login1", "X")]
       :: @Ev_wait_for_emptiness scripted
            [{| key := "login1"; info := "X"; validity := invalid |}]
       :: [@Ev_log scripted INFO "Re-authentication has been initiated.";
           @Ev_run_activity scripted concurrently authentication;
           @Ev_execute_handlers_once scripted concurrently login1_pending
             [("login1", Success (Some "Z"))];
           @Ev_log scripted INFO "Re-authentication has finished.";
           @Ev_populate scripted [("login1", "Z")]])%list) by reflexivity.
  split; [exact H|].
  exact (@authenticator_after_populate scripted 2%nat 5%nat ["login1"] tt
           stale _ _ _ _ H).
Defined.

(** X9 at work: the attempt in which one handler fails for good. *)
Lemma authenticate_failure_unreported_witness :
  completion (@authenticate scripted 1 logins tt "Authentication" one_fails)
    = Raised (@Build_ActivityError scripted
                "One or more handlers failed." one_fails_answer "denied") /\
  forall level message,
    In (Ev_log level message)
       (events (@authenticate scripted 1 logins tt "Authentication"
                  one_fails)) ->
    level = INFO /\ message = "Authentication" ++ " has been initiated.".
Proof.
  assert (H : completion (@authenticate scripted 1 logins tt "Authentication"
                            one_fails)
              = Raised (@Build_ActivityError scripted
                          "One or more handlers failed." one_fails_answer
                          "denied")) by reflexivity.
  split; [exact H|].
  destruct (@authenticate_failure_unreported scripted 1%nat logins tt
              "Authentication" one_fails _ H) as [_ [found [_ Hlog]]].
  exact Hlog.
Defined.

End MoreRuns.
